(** * minify-css-map: a shallow embedding of [bin/minify-css-map.mjs]

    The script minifies CSS text with four global regular-expression
    replacements, builds a per-line "source map" record, and walks a
    directory tree writing [<base>.min.css] and [<base>.css.map] next to
    every [.css] file.  This development embeds those functions and
    proves the properties stated about them. *)

From Stdlib Require Import Ascii String Decimal.
From Stdlib Require Import List NArith Bool Arith Lia.
From Stdlib Require DecimalNat.
Import ListNotations.

(* ================================================================== *)
(** * JavaScript strings *)
(* ================================================================== *)

(** A JavaScript string is a sequence of UTF-16 code units.  None of the
    regular expressions of the script carries the [u] flag, so they all
    work code unit by code unit. *)
Definition char := N.
Definition str := list char.

(** An ASCII literal as a JavaScript string. *)
Definition lit (s : string) : str := map N_of_ascii (list_ascii_of_string s).

Definition TAB : char := 9%N.
Definition LF : char := 10%N.
Definition SPACE : char := 32%N.
Definition STAR : char := 42%N.
Definition SLASH : char := 47%N.
Definition COLON : char := 58%N.
Definition SEMI : char := 59%N.
Definition LBRACE : char := 123%N.
Definition RBRACE : char := 125%N.

(** The class [\s]: WhiteSpace and LineTerminator code points
    (TAB, LF, VT, FF, CR, SP, NBSP, U+1680, U+2000..U+200A, U+2028,
    U+2029, U+202F, U+205F, U+3000, U+FEFF). *)
Definition is_ws (c : char) : bool :=
  ((9 <=? c) && (c <=? 13) || (c =? 32) || (c =? 160) || (c =? 5760)
   || (8192 <=? c) && (c <=? 8202) || (c =? 8232) || (c =? 8233)
   || (c =? 8239) || (c =? 8287) || (c =? 12288) || (c =? 65279))%N.

(** The class [[{}:;]]. *)
Definition is_punct (c : char) : bool :=
  ((c =? LBRACE) || (c =? RBRACE) || (c =? COLON) || (c =? SEMI))%N.

(** [s.startsWith(p)]. *)
Fixpoint startsWith (p s : str) : bool :=
  match p, s with
  | [], _ => true
  | _ :: _, [] => false
  | a :: p', b :: s' => (a =? b)%N && startsWith p' s'
  end.

(** [s.includes(p)]: [p] occurs at some position of [s]. *)
Fixpoint includes (p s : str) : bool :=
  startsWith p s ||
  match s with
  | [] => false
  | _ :: s' => includes p s'
  end.

(** [s.endsWith(p)]. *)
Definition endsWith (p s : str) : bool :=
  (length p <=? length s) && startsWith p (skipn (length s - length p) s).

(** [s.split(sep)] for a separator of one code unit, as in
    [cssContent.split('\n')]: the result is never empty, and a trailing
    separator yields a trailing empty segment. *)
Fixpoint split (sep : char) (s : str) : list str :=
  match s with
  | [] => [[]]
  | c :: t =>
      if (c =? sep)%N then [] :: split sep t
      else match split sep t with
           | seg :: segs => (c :: seg) :: segs
           | [] => [[c]]
           end
  end.

(** [segs.join(sep)]. *)
Fixpoint join (sep : str) (segs : list str) : str :=
  match segs with
  | [] => []
  | [seg] => seg
  | seg :: rest => seg ++ sep ++ join sep rest
  end.

(** [String(n)] for a non-negative integer: its decimal digits. *)
Fixpoint digits (u : Decimal.uint) : str :=
  match u with
  | Nil => []
  | D0 u => 48%N :: digits u
  | D1 u => 49%N :: digits u
  | D2 u => 50%N :: digits u
  | D3 u => 51%N :: digits u
  | D4 u => 52%N :: digits u
  | D5 u => 53%N :: digits u
  | D6 u => 54%N :: digits u
  | D7 u => 55%N :: digits u
  | D8 u => 56%N :: digits u
  | D9 u => 57%N :: digits u
  end.

Definition numberToString (n : nat) : str := digits (Nat.to_uint n).

(** [xs.map((x, index) => f(x, index))], counting from [i]. *)
Fixpoint mapi_from {A B} (f : A -> nat -> B) (i : nat) (xs : list A) : list B :=
  match xs with
  | [] => []
  | x :: xs' => f x i :: mapi_from f (S i) xs'
  end.

Definition mapi {A B} (f : A -> nat -> B) (xs : list A) : list B :=
  mapi_from f 0 xs.

(* ================================================================== *)
(** * [String.prototype.replace] with a global regular expression *)
(* ================================================================== *)

(** A pattern is given by what it does when tried at the head of the
    remaining text: [None] when it does not match there, or the
    replacement text (with [$1] already substituted) and the number of
    code units the match consumes.  None of the four patterns of the
    script looks behind the position it is tried at. *)
Definition matcher := str -> option (str * nat).

(** The replacement loop: the pattern is tried at each position from
    left to right; a match is replaced and the scan resumes behind it
    (one code unit further when the match was empty); a code unit at
    which the pattern does not match is copied.  [skip] counts the code
    units of the current match that are still to be passed over. *)
Fixpoint replaceFrom (m : matcher) (skip : nat) (s : str) : str :=
  match s with
  | [] =>
      match m [] with
      | Some (r, _) => r
      | None => []
      end
  | c :: t =>
      match skip with
      | S k => replaceFrom m k t
      | O =>
          match m s with
          | Some (r, S k) => r ++ replaceFrom m k t
          | Some (r, O) => r ++ c :: replaceFrom m 0 t
          | None => c :: replaceFrom m 0 t
          end
      end
  end.

Definition replaceAll (m : matcher) (s : str) : str := replaceFrom m 0 s.

(* ================================================================== *)
(** * [minifyCss] *)
(* ================================================================== *)

(** Does the text start with the code unit [c]? *)
Definition headIs (c : char) (s : str) : bool :=
  match s with
  | d :: _ => (d =? c)%N
  | [] => false
  end.

(** Length of the text up to and including the first ["*/"], if any. *)
Fixpoint closeAt (s : str) : option nat :=
  match s with
  | [] => None
  | c :: t =>
      if (c =? STAR)%N && headIs SLASH t then Some 2
      else option_map S (closeAt t)
  end.

(** [/\/\*[\s\S]*?\*\//]: ["/*"], then as few code units as possible,
    then ["*/"].  Without a later ["*/"] the pattern does not match. *)
Definition reComment : matcher := fun s =>
  match s with
  | a :: b :: r =>
      if (a =? SLASH)%N && (b =? STAR)%N then
        match closeAt r with
        | Some k => Some ([], 2 + k)
        | None => None
        end
      else None
  | _ => None
  end.

(** Length of the longest prefix of whitespace. *)
Fixpoint wsRun (s : str) : nat :=
  match s with
  | c :: t => if is_ws c then S (wsRun t) else 0
  | [] => 0
  end.

(** [/\s+/], replaced by [' ']: a maximal run of whitespace. *)
Definition reSpaces : matcher := fun s =>
  match wsRun s with
  | O => None
  | n => Some ([SPACE], n)
  end.

(** [/\s*([{}:;])\s*/], replaced by ['$1'].  Both stars are greedy, and
    giving back whitespace cannot help the first one (the code unit it
    gives back is not in [[{}:;]]), so the pattern matches exactly when
    the maximal run of whitespace is followed by one of the four
    characters, and it takes the maximal run of whitespace behind it. *)
Definition rePunct : matcher := fun s =>
  let n := wsRun s in
  match skipn n s with
  | p :: r => if is_punct p then Some ([p], n + 1 + wsRun r) else None
  | [] => None
  end.

(** [/;}/], replaced by ['}']. *)
Definition reSemiBrace : matcher := fun s =>
  match s with
  | a :: b :: _ =>
      if (a =? SEMI)%N && (b =? RBRACE)%N then Some ([RBRACE], 2) else None
  | _ => None
  end.

Definition removeComments (css : str) : str := replaceAll reComment css.
Definition collapseSpaces (css : str) : str := replaceAll reSpaces css.
Definition trimPunct (css : str) : str := replaceAll rePunct css.
Definition dropLastSemi (css : str) : str := replaceAll reSemiBrace css.

(** [minifyCss(css)]: the four replacements in the order of the source. *)
Definition minifyCss (css : str) : str :=
  dropLastSemi (trimPunct (collapseSpaces (removeComments css))).

(** ** [normalizeCss] of the test suite *)

(** [s.trimStart()], [s.trimEnd()] and [s.trim()]: the whitespace they
    strip is the class [\s]. *)
Definition trimStart (s : str) : str := skipn (wsRun s) s.
Definition trimEnd (s : str) : str := rev (trimStart (rev s)).
Definition trim (s : str) : str := trimEnd (trimStart s).

(** The tests compare texts through
    [css.replace(/\s+/g, ' ').replace(/\s*([{}:;])\s*/g, '$1').trim()]. *)
Definition normalizeCss (css : str) : str :=
  trim (replaceAll rePunct (replaceAll reSpaces css)).

(* ================================================================== *)
(** * [generateSourceMap] *)
(* ================================================================== *)

Record MapEntry := {
  original : str;
  generated : str
}.

Record SourceMap := {
  version : nat;
  file : str;
  sources : list str;
  mappings : list MapEntry
}.

Definition generateSourceMap (cssContent cssFileName : str) : SourceMap :=
  let lines := split LF cssContent in
  let mapEntries :=
    mapi (fun line index =>
            {| original := line;
               generated := numberToString (index + 1) ++ lit ":0" |})
         lines in
  {| version := 3;
     file := cssFileName;
     sources := [cssFileName];
     mappings := mapEntries |}.

(* ================================================================== *)
(** * The Node.js runtime: [fs], [path], [console], [JSON] *)
(* ================================================================== *)

(** What a run does to the outside world, in order. *)
Inductive Event :=
| ConsoleLog (msg : str)
| ConsoleError (msg : str)
| ExistsSync (p : str)
| ReaddirSync (p : str)
| StatSync (p : str)
| ReadFileSync (p : str)
| WriteFileSync (p : str) (data : str).

(** The built-in modules the script calls.  They are not code of the
    script, so it is embedded over any implementation of them; [None]
    stands for a thrown exception. *)
Class NodeRuntime := {
  Disk : Type;
  fs_existsSync : Disk -> str -> bool;
  fs_readdirSync : Disk -> str -> option (list str);
  fs_statSync_isDirectory : Disk -> str -> option bool;
  fs_readFileSync : Disk -> str -> option str;
  fs_writeFileSync : Disk -> str -> str -> option Disk;
  path_join : str -> str -> str;
  path_dirname : str -> str;
  path_basename : str -> str -> str;
  (** [JSON.stringify(value, null, 2)] *)
  JSON_stringify : SourceMap -> str
}.

Section Effects.
Context {node : NodeRuntime}.

Record World := {
  disk : Disk;
  trace : list Event
}.

(** How a call ends: it returns, an exception escapes it, or the model
    ran out of call depth. *)
Inductive Outcome (A : Type) :=
| Returned (a : A)
| Thrown
| OutOfFuel.
Arguments Returned {A} a.
Arguments Thrown {A}.
Arguments OutOfFuel {A}.

Definition Eff (A : Type) := World -> Outcome A * World.

Definition ret {A} (a : A) : Eff A := fun w => (Returned a, w).

Definition bind {A B} (c : Eff A) (k : A -> Eff B) : Eff B := fun w =>
  match c w with
  | (Returned a, w') => k a w'
  | (Thrown, w') => (Thrown, w')
  | (OutOfFuel, w') => (OutOfFuel, w')
  end.

Definition record (e : Event) (w : World) : World :=
  {| disk := disk w; trace := trace w ++ [e] |}.

Definition console_log (msg : str) : Eff unit := fun w =>
  (Returned tt, record (ConsoleLog msg) w).

Definition console_error (msg : str) : Eff unit := fun w =>
  (Returned tt, record (ConsoleError msg) w).

Definition existsSync (p : str) : Eff bool := fun w =>
  (Returned (fs_existsSync (disk w) p), record (ExistsSync p) w).

Definition orThrow {A} (o : option A) (w : World) : Outcome A * World :=
  match o with
  | Some a => (Returned a, w)
  | None => (Thrown, w)
  end.

Definition readdirSync (p : str) : Eff (list str) := fun w =>
  orThrow (fs_readdirSync (disk w) p) (record (ReaddirSync p) w).

Definition statSync_isDirectory (p : str) : Eff bool := fun w =>
  orThrow (fs_statSync_isDirectory (disk w) p) (record (StatSync p) w).

Definition readFileSync (p : str) : Eff str := fun w =>
  orThrow (fs_readFileSync (disk w) p) (record (ReadFileSync p) w).

Definition writeFileSync (p data : str) : Eff unit := fun w =>
  match fs_writeFileSync (disk w) p data with
  | Some d => (Returned tt,
               {| disk := d; trace := trace w ++ [WriteFileSync p data] |})
  | None => (Thrown, record (WriteFileSync p data) w)
  end.

(** [xs.forEach(f)]: the calls run in order and the first exception
    ends the loop. *)
Fixpoint forEach {A} (xs : list A) (f : A -> Eff unit) : Eff unit :=
  match xs with
  | [] => ret tt
  | x :: xs' => bind (f x) (fun _ => forEach xs' f)
  end.

Local Notation "x <- c ;; k" := (bind c (fun x => k))
  (at level 61, c at next level, right associativity).
Local Notation "c ;;; k" := (bind c (fun _ => k))
  (at level 61, right associativity).

Definition minifyCssFile (cssFilePath : str) : Eff unit :=
  cssContent <- readFileSync cssFilePath ;;
  let minifiedCss := minifyCss cssContent in
  let cssDir := path_dirname cssFilePath in
  let baseFileName := path_basename cssFilePath (lit ".css") in
  let minCssFilePath := path_join cssDir (baseFileName ++ lit ".min.css") in
  let mapFilePath := path_join cssDir (baseFileName ++ lit ".css.map") in
  writeFileSync minCssFilePath minifiedCss ;;;
  let sourceMap := generateSourceMap cssContent (baseFileName ++ lit ".css") in
  writeFileSync mapFilePath (JSON_stringify sourceMap) ;;;
  console_log (lit "Minified " ++ cssFilePath ++ lit " -> " ++ minCssFilePath).

(** The recursion follows the directory tree on the disk, which the
    script does not bound; [fuel] bounds the depth of the calls. *)
Fixpoint processDirectory (fuel : nat) (dirPath : str) : Eff unit :=
  match fuel with
  | O => fun w => (OutOfFuel, w)
  | S fuel' =>
      files <- readdirSync dirPath ;;
      forEach files (fun file =>
        let filePath := path_join dirPath file in
        isDirectory <- statSync_isDirectory filePath ;;
        if isDirectory then processDirectory fuel' filePath
        else if endsWith (lit ".css") file
                && negb (endsWith (lit ".min.css") file)
        then minifyCssFile filePath
        else ret tt)
  end.

(** [process.argv[2] || DIRECTORY_META_NAME]: a missing or empty
    argument selects the directory of the script. *)
Definition targetDirectory (argv2 : option str) (DIRECTORY_META_NAME : str)
  : str :=
  match argv2 with
  | Some (_ :: _ as dir) => dir
  | _ => DIRECTORY_META_NAME
  end.

Definition startMinification (fuel : nat) (targetDirectory : str) : Eff unit :=
  let rootDirectory := targetDirectory in
  console_log (lit "Starting CSS minification in: " ++ rootDirectory) ;;;
  present <- existsSync rootDirectory ;;
  if negb present then
    console_error (lit "Target directory does not exist: " ++ rootDirectory)
  else
    processDirectory fuel rootDirectory ;;;
    console_log (lit "CSS minification completed.").

(** Events that read, list, inspect the contents of, or write files. *)
Definition touchesFiles (e : Event) : bool :=
  match e with
  | ReaddirSync _ | StatSync _ | ReadFileSync _ | WriteFileSync _ _ => true
  | ConsoleLog _ | ConsoleError _ | ExistsSync _ => false
  end.

End Effects.

Arguments Returned {A} a.
Arguments Thrown {A}.
Arguments OutOfFuel {A}.

(* ================================================================== *)
(** * An in-memory runtime *)
(* ================================================================== *)

(** A disk held in memory, to run the script on examples: a list of
    paths, each a regular file with its content or a directory, with
    ["/"] between the segments of a path. *)
Module Memory.

Inductive node :=
| File (content : str)
| Directory.

Definition disk := list (str * node).

Definition same (a b : str) : bool :=
  (length a =? length b) && startsWith a b.

Definition lookup (d : disk) (p : str) : option node :=
  option_map snd (find (fun e => same (fst e) p) d).

Definition pjoin (a b : str) : str := a ++ SLASH :: b.

Definition pdirname (p : str) : str :=
  match removelast (split SLASH p) with
  | [] => lit "."
  | segs => join [SLASH] segs
  end.

Definition pbasename (p ext : str) : str :=
  let name := last (split SLASH p) [] in
  if endsWith ext name && (length ext <? length name)
  then firstn (length name - length ext) name
  else name.

Definition exists_ (d : disk) (p : str) : bool :=
  match lookup d p with
  | Some _ => true
  | None => false
  end.

Definition entry (dir p : str) : list str :=
  let name := skipn (length dir + 1) p in
  if startsWith (dir ++ [SLASH]) p
     && negb (existsb (N.eqb SLASH) name) && (0 <? length name)
  then [name] else [].

Definition readdir (d : disk) (p : str) : option (list str) :=
  match lookup d p with
  | Some Directory => Some (flat_map (fun e => entry p (fst e)) d)
  | _ => None
  end.

Definition isDirectory (d : disk) (p : str) : option bool :=
  match lookup d p with
  | Some Directory => Some true
  | Some (File _) => Some false
  | None => None
  end.

Definition readFile (d : disk) (p : str) : option str :=
  match lookup d p with
  | Some (File content) => Some content
  | _ => None
  end.

Definition writeFile (d : disk) (p data : str) : option disk :=
  match lookup d p with
  | Some Directory => None
  | Some (File _) =>
      Some (map (fun e => if same (fst e) p then (p, File data) else e) d)
  | None =>
      match lookup d (pdirname p) with
      | Some Directory => Some (d ++ [(p, File data)])
      | _ => None
      end
  end.

(** JSON text with two spaces of indentation. *)
Definition QUOTE : char := 34%N.
Definition BACKSLASH : char := 92%N.

Definition hexDigit (n : N) : char :=
  if (n <? 10)%N then (48 + n)%N else (87 + n)%N.

Definition escape (c : char) : str :=
  if (c =? QUOTE)%N then [BACKSLASH; QUOTE]
  else if (c =? BACKSLASH)%N then [BACKSLASH; BACKSLASH]
  else if (c =? 8)%N then BACKSLASH :: lit "b"
  else if (c =? 9)%N then BACKSLASH :: lit "t"
  else if (c =? 10)%N then BACKSLASH :: lit "n"
  else if (c =? 12)%N then BACKSLASH :: lit "f"
  else if (c =? 13)%N then BACKSLASH :: lit "r"
  else if (c <? 32)%N
       then BACKSLASH :: lit "u00" ++ [hexDigit (c / 16); hexDigit (c mod 16)]
  else [c].

Definition quoted (s : str) : str := QUOTE :: flat_map escape s ++ [QUOTE].

Definition member (indent key : string) (value : str) : str :=
  lit indent ++ quoted (lit key) ++ lit ": " ++ value.

Definition array (indent : string) (items : list str) : str :=
  match items with
  | [] => lit "[]"
  | _ => lit "[" ++ [LF] ++ join (lit "," ++ [LF]) items ++ [LF]
         ++ lit indent ++ lit "]"
  end.

Definition entryJson (e : MapEntry) : str :=
  lit "    {" ++ [LF]
  ++ member "      " "original" (quoted (original e)) ++ lit "," ++ [LF]
  ++ member "      " "generated" (quoted (generated e)) ++ [LF]
  ++ lit "    }".

Definition stringify (m : SourceMap) : str :=
  lit "{" ++ [LF]
  ++ member "  " "version" (numberToString (version m)) ++ lit "," ++ [LF]
  ++ member "  " "file" (quoted (file m)) ++ lit "," ++ [LF]
  ++ member "  " "sources"
       (array "  " (map (fun s => lit "    " ++ quoted s) (sources m)))
  ++ lit "," ++ [LF]
  ++ member "  " "mappings" (array "  " (map entryJson (mappings m))) ++ [LF]
  ++ lit "}".

#[export] Instance runtime : NodeRuntime := {|
  Disk := disk;
  fs_existsSync := exists_;
  fs_readdirSync := readdir;
  fs_statSync_isDirectory := isDirectory;
  fs_readFileSync := readFile;
  fs_writeFileSync := writeFile;
  path_join := pjoin;
  path_dirname := pdirname;
  path_basename := pbasename;
  JSON_stringify := stringify
|}.

(** The same disk with every file unreadable, as when the process lacks
    the permission: [readFileSync] throws. *)
Definition locked : NodeRuntime := {|
  Disk := disk;
  fs_existsSync := exists_;
  fs_readdirSync := readdir;
  fs_statSync_isDirectory := isDirectory;
  fs_readFileSync := fun _ _ => None;
  fs_writeFileSync := writeFile;
  path_join := pjoin;
  path_dirname := pdirname;
  path_basename := pbasename;
  JSON_stringify := stringify
|}.

(** A small tree: [css/a.css], [css/a.min.css] and [css/sub/b.css]. *)
Definition sample : disk :=
  [ (lit "css", Directory);
    (lit "css/a.css", File (lit "a { color : red; }"));
    (lit "css/a.min.css", File (lit "old"));
    (lit "css/sub", Directory);
    (lit "css/sub/b.css", File (lit "b { }")) ].

(** The files a trace wrote, in order. *)
Definition written (events : list Event) : list str :=
  flat_map (fun e => match e with WriteFileSync p _ => [p] | _ => [] end)
           events.

End Memory.

(* ================================================================== *)
(** * Predicates used in the statements *)
(* ================================================================== *)

(** Some pair of neighbouring code units of [s] is related by [R]. *)
Fixpoint adjacent (R : char -> char -> bool) (s : str) : bool :=
  match s with
  | a :: t =>
      match t with
      | b :: _ => R a b || adjacent R t
      | [] => false
      end
  | [] => false
  end.

(** Two neighbouring spaces. *)
Definition twoSpaces (a b : char) : bool := ((a =? SPACE) && (b =? SPACE))%N.

(** A space next to one of [{ } : ;], on either side. *)
Definition spaceAtPunct (a b : char) : bool :=
  ((a =? SPACE)%N && is_punct b) || (is_punct a && (b =? SPACE)%N).

(** Every whitespace code unit of [s] is the ASCII space. *)
Definition onlySpaces (s : str) : bool :=
  forallb (fun c => negb (is_ws c) || (c =? SPACE)%N) s.

(** The pattern [m] matches at some position of [s]. *)
Fixpoint matchesSomewhere (m : matcher) (s : str) : bool :=
  match m s with
  | Some _ => true
  | None =>
      match s with
      | [] => false
      | _ :: t => matchesSomewhere m t
      end
  end.

(** [s] holds a closed block comment: the comment pattern matches
    somewhere in it. *)
Definition hasComment (s : str) : bool := matchesSomewhere reComment s.

(** A pattern that never matches the empty string, and whose matches
    lie within the text. *)
Definition proper (m : matcher) : Prop :=
  m [] = None /\ forall s r n, m s = Some (r, n) -> 1 <= n <= length s.

(** The code unit [x] is never part of a match of [m]. *)
Definition untouched (m : matcher) (x : char) : Prop :=
  forall a b r n, m (a ++ x :: b) = Some (r, n) -> n <= length a.

(** A code unit outside the class [\s]. *)
Definition notWs (c : char) : bool := negb (is_ws c).

(** The test of [processDirectory] on the name of a regular file. *)
Definition isSource (file : str) : bool :=
  endsWith (lit ".css") file && negb (endsWith (lit ".min.css") file).

(** The names [minifyCssFile] gives to what it writes. *)
Definition isOutputName (name : str) : bool :=
  endsWith (lit ".min.css") name || endsWith (lit ".css.map") name.

Definition isWrite (e : Event) : bool :=
  match e with
  | WriteFileSync _ _ => true
  | _ => false
  end.

(** What the walk of a directory may do: list and inspect anything,
    read files named as sources, write files named as outputs, and
    report each minified file. *)
Definition walkEvent {node : NodeRuntime} (e : Event) : Prop :=
  match e with
  | ReaddirSync _ | StatSync _ => True
  | ReadFileSync p =>
      exists dir file, p = path_join dir file /\ isSource file = true
  | WriteFileSync p _ =>
      exists dir name, p = path_join dir name /\ isOutputName name = true
  | ConsoleLog msg =>
      exists src dst, msg = lit "Minified " ++ src ++ lit " -> " ++ dst
  | ConsoleError _ | ExistsSync _ => False
  end.

(** The call [c] only appends events, each of them allowed by [P], and
    it leaves the disk as it was unless one of them is a write. *)
Definition adds {node : NodeRuntime} (P : Event -> Prop) {A} (c : Eff A)
  : Prop :=
  forall w, exists events,
    trace (snd (c w)) = trace w ++ events
    /\ Forall P events
    /\ (existsb isWrite events = false -> disk (snd (c w)) = disk w).

(* ================================================================== *)
(** * The replacement loop *)
(* ================================================================== *)

Section ReplaceAll.
Variable m : matcher.

Lemma replaceFrom_skipn : forall s k,
  replaceFrom m k s = replaceAll m (skipn k s).
Proof.
  induction s as [|c t IH]; intros [|k]; simpl; try reflexivity.
  apply IH.
Qed.

Hypothesis m_proper : proper m.

Lemma replaceAll_nil : replaceAll m [] = [].
Proof.
  unfold replaceAll; simpl. destruct m_proper as [E _]. now rewrite E.
Qed.

Lemma replaceAll_miss c t :
  m (c :: t) = None -> replaceAll m (c :: t) = c :: replaceAll m t.
Proof.
  intros E. unfold replaceAll; simpl. now rewrite E.
Qed.

Lemma replaceAll_hit s r n :
  m s = Some (r, n) -> replaceAll m s = r ++ replaceAll m (skipn n s).
Proof.
  intros E. destruct m_proper as [_ B]. pose proof (B _ _ _ E) as [Hn Hl].
  destruct s as [|c t]; [simpl in Hl; lia|].
  destruct n as [|k]; [lia|].
  unfold replaceAll at 1; simpl. rewrite E.
  now rewrite replaceFrom_skipn.
Qed.

(** The loop, read as a recursion on the remaining text. *)
Lemma replaceAll_ind (P : str -> str -> Prop) :
  P [] [] ->
  (forall c t, m (c :: t) = None ->
     P t (replaceAll m t) -> P (c :: t) (c :: replaceAll m t)) ->
  (forall s r n, m s = Some (r, n) ->
     P (skipn n s) (replaceAll m (skipn n s)) ->
     P s (r ++ replaceAll m (skipn n s))) ->
  forall s, P s (replaceAll m s).
Proof.
  intros Hnil Hmiss Hhit s.
  remember (length s) as k eqn:Hk. revert s Hk.
  induction k as [k IH] using lt_wf_ind. intros s Hk.
  destruct s as [|c t].
  - rewrite replaceAll_nil. exact Hnil.
  - destruct (m (c :: t)) as [[r n]|] eqn:E.
    + rewrite (replaceAll_hit _ _ _ E). apply Hhit; [exact E|].
      destruct m_proper as [_ B]. pose proof (B _ _ _ E) as [Hn Hl].
      apply (IH (length (skipn n (c :: t)))); [|reflexivity].
      rewrite length_skipn. cbn [length] in *. lia.
    + rewrite (replaceAll_miss _ _ E). apply Hmiss; [exact E|].
      apply (IH (length t)); [|reflexivity]. simpl in Hk. lia.
Qed.

(** A pass whose every match is replaced by the text it matched
    changes nothing. *)
Lemma replaceAll_fixed (Inv : str -> Prop) :
  (forall c t, Inv (c :: t) -> Inv t) ->
  (forall s r n, Inv s -> m s = Some (r, n) -> r = firstn n s) ->
  forall s, Inv s -> replaceAll m s = s.
Proof.
  intros Hsuf Hrep s.
  apply (replaceAll_ind (fun s out => Inv s -> out = s)).
  - reflexivity.
  - intros c t _ IH Hi. f_equal. apply IH. eapply Hsuf; eauto.
  - intros s0 r n E IH Hi.
    rewrite (Hrep _ _ _ Hi E), IH, firstn_skipn; [reflexivity|].
    clear - Hsuf Hi. revert s0 Hi.
    induction n as [|n IHn]; intros [|c t] Hi; simpl; auto.
    apply IHn. eapply Hsuf; eauto.
Qed.

(** Every code unit of the result comes from the text or from a
    replacement. *)
Lemma replaceAll_In (Q : char -> Prop) :
  (forall s r n, m s = Some (r, n) -> forall c, In c r -> In c s \/ Q c) ->
  forall s c, In c (replaceAll m s) -> In c s \/ Q c.
Proof.
  intros Hr s.
  apply (replaceAll_ind (fun s out => forall c, In c out -> In c s \/ Q c)).
  - simpl; tauto.
  - intros c t _ IH d [->|Hd]; [left; now left|].
    destruct (IH _ Hd); [left; now right | now right].
  - intros s0 r n E IH d Hd. apply in_app_or in Hd as [Hd|Hd].
    + eapply Hr; eauto.
    + destruct (IH _ Hd) as [Hi|Hq]; [left | now right].
      rewrite <- (firstn_skipn n s0). apply in_or_app. now right.
Qed.

End ReplaceAll.

(* ================================================================== *)
(** * Character classes and the four patterns *)
(* ================================================================== *)

Lemma is_punct_cases p :
  is_punct p = true ->
  p = LBRACE \/ p = RBRACE \/ p = COLON \/ p = SEMI.
Proof.
  unfold is_punct. rewrite !orb_true_iff, !N.eqb_eq. tauto.
Qed.

Lemma punct_not_ws p : is_punct p = true -> is_ws p = false.
Proof.
  intros H. destruct (is_punct_cases _ H) as [-> | [-> | [-> | ->]]]; reflexivity.
Qed.

Lemma punct_not_space p : is_punct p = true -> (p =? SPACE)%N = false.
Proof.
  intros H. destruct (is_punct_cases _ H) as [-> | [-> | [-> | ->]]]; reflexivity.
Qed.

Lemma wsRun_le s : wsRun s <= length s.
Proof.
  induction s as [|c t IH]; simpl; [lia|]. destruct (is_ws c); simpl; lia.
Qed.

Lemma wsRun_skipn s : wsRun (skipn (wsRun s) s) = 0.
Proof.
  induction s as [|c t IH]; simpl; [reflexivity|].
  destruct (is_ws c) eqn:E; simpl; [exact IH | now rewrite E].
Qed.

Lemma wsRun_stops a x b : is_ws x = false -> wsRun (a ++ x :: b) <= length a.
Proof.
  intros Hx. induction a as [|c a IH]; simpl.
  - now rewrite Hx.
  - destruct (is_ws c); lia.
Qed.

Lemma closeAt_bounds s k : closeAt s = Some k -> 2 <= k <= length s.
Proof.
  revert k. induction s as [|c t IH]; simpl; intros k H; [discriminate|].
  destruct ((c =? STAR)%N && headIs SLASH t) eqn:E.
  - injection H as <-. apply andb_prop in E as [_ E].
    destruct t; [discriminate|]. simpl. lia.
  - destruct (closeAt t) as [j|]; [|discriminate].
    injection H as <-. specialize (IH j eq_refl). lia.
Qed.

Lemma reComment_proper : proper reComment.
Proof.
  split; [reflexivity|]. intros s r n H.
  destruct s as [|a [|b t]]; try discriminate. simpl in H.
  destruct ((a =? SLASH)%N && (b =? STAR)%N); [|discriminate].
  destruct (closeAt t) as [k|] eqn:E; [|discriminate].
  injection H as <- <-. apply closeAt_bounds in E. simpl. lia.
Qed.

Lemma reSpaces_proper : proper reSpaces.
Proof.
  split; [reflexivity|]. intros s r n H. unfold reSpaces in H.
  pose proof (wsRun_le s).
  destruct (wsRun s) as [|k]; [discriminate|]. injection H as <- <-. lia.
Qed.

Lemma rePunct_proper : proper rePunct.
Proof.
  split; [reflexivity|]. intros s r n H. unfold rePunct in H.
  destruct (skipn (wsRun s) s) as [|p t] eqn:E; [discriminate|].
  destruct (is_punct p); [|discriminate]. injection H as <- <-.
  pose proof (wsRun_le t). pose proof (length_skipn (wsRun s) s) as L.
  rewrite E in L. simpl in L. lia.
Qed.

Lemma reSemiBrace_proper : proper reSemiBrace.
Proof.
  split; [reflexivity|]. intros s r n H.
  destruct s as [|a [|b t]]; try discriminate. simpl in H.
  destruct ((a =? SEMI)%N && (b =? RBRACE)%N); [|discriminate].
  injection H as <- <-. simpl. lia.
Qed.

#[local] Hint Resolve reComment_proper reSpaces_proper rePunct_proper
  reSemiBrace_proper : core.

(** What each pattern yields, in the terms of the text. *)

Lemma reSpaces_hit s r n :
  reSpaces s = Some (r, n) ->
  r = [SPACE] /\ n = wsRun s /\ exists c t, s = c :: t /\ is_ws c = true.
Proof.
  unfold reSpaces. intros H.
  destruct (wsRun s) as [|k] eqn:E; [discriminate|]. injection H as <- <-.
  repeat split. destruct s as [|c t]; [discriminate|]. simpl in E.
  exists c, t. split; [reflexivity|]. destruct (is_ws c); [reflexivity|discriminate].
Qed.

Lemma reSpaces_miss c t : reSpaces (c :: t) = None -> is_ws c = false.
Proof.
  unfold reSpaces; simpl. destruct (is_ws c); [discriminate|reflexivity].
Qed.

Lemma rePunct_hit s r n :
  rePunct s = Some (r, n) ->
  exists p t, skipn (wsRun s) s = p :: t /\ is_punct p = true
              /\ r = [p] /\ n = wsRun s + 1 + wsRun t
              /\ skipn n s = skipn (wsRun t) t.
Proof.
  unfold rePunct. intros H.
  destruct (skipn (wsRun s) s) as [|p t] eqn:E; [discriminate|].
  destruct (is_punct p) eqn:Hp; [|discriminate]. injection H as <- <-.
  exists p, t. repeat split; auto.
  replace (wsRun s + 1 + wsRun t) with (wsRun t + 1 + wsRun s) by lia.
  rewrite <- !skipn_skipn, E. reflexivity.
Qed.

Lemma reSemiBrace_hit s r n :
  reSemiBrace s = Some (r, n) ->
  exists t, s = SEMI :: RBRACE :: t /\ r = [RBRACE] /\ n = 2.
Proof.
  intros H. destruct s as [|a [|b t]]; try discriminate. simpl in H.
  destruct ((a =? SEMI)%N && (b =? RBRACE)%N) eqn:E; [|discriminate].
  injection H as <- <-. apply andb_prop in E as [Ea Eb].
  apply N.eqb_eq in Ea, Eb. subst. now exists t.
Qed.

Lemma reComment_hit s r n :
  reComment s = Some (r, n) ->
  exists t k, s = SLASH :: STAR :: t /\ closeAt t = Some k
              /\ r = [] /\ n = 2 + k.
Proof.
  intros H. destruct s as [|a [|b t]]; try discriminate. simpl in H.
  destruct ((a =? SLASH)%N && (b =? STAR)%N) eqn:E; [|discriminate].
  destruct (closeAt t) as [k|] eqn:Ek; [|discriminate].
  injection H as <- <-. apply andb_prop in E as [Ea Eb].
  apply N.eqb_eq in Ea, Eb. subst. now exists t, k.
Qed.

(* ================================================================== *)
(** * Neighbouring code units *)
(* ================================================================== *)

Section Adjacent.
Variable R : char -> char -> bool.

Lemma adjacent_cons x s :
  adjacent R (x :: s) =
  match s with d :: _ => R x d | [] => false end || adjacent R s.
Proof. destruct s; reflexivity. Qed.

Lemma adjacent_tail x s : adjacent R (x :: s) = false -> adjacent R s = false.
Proof.
  rewrite adjacent_cons. intros H. now apply orb_false_elim in H.
Qed.

Lemma adjacent_skipn n : forall s,
  adjacent R s = false -> adjacent R (skipn n s) = false.
Proof.
  induction n as [|n IH]; intros [|c t] H; simpl; auto.
  apply IH. now apply adjacent_tail in H.
Qed.

Lemma adjacent_head x d t : adjacent R (x :: d :: t) = false -> R x d = false.
Proof.
  rewrite adjacent_cons. intros H. now apply orb_false_elim in H.
Qed.

Lemma adjacent_weaken (R' : char -> char -> bool) :
  (forall a b, R' a b = true -> R a b = true) ->
  forall s, adjacent R s = false -> adjacent R' s = false.
Proof.
  intros Hw. induction s as [|a t IH]; [reflexivity|].
  destruct t as [|b t']; [reflexivity|].
  cbn [adjacent] in *. intros H. apply orb_false_elim in H as [H1 H2].
  rewrite (IH H2), orb_false_r.
  destruct (R' a b) eqn:E; [|reflexivity]. apply Hw in E. congruence.
Qed.

(** A pass that replaces each match by one code unit which fits where
    the match stood keeps the text free of [R]-related neighbours. *)
Lemma replaceAll_adjacent_left (m : matcher) :
  proper m ->
  (forall s r n, m s = Some (r, n) -> adjacent R s = false ->
     exists p, r = [p]
       /\ (forall x, adjacent R (x :: s) = false -> R x p = false)
       /\ adjacent R (p :: skipn n s) = false) ->
  forall s x, adjacent R (x :: s) = false ->
              adjacent R (x :: replaceAll m s) = false.
Proof.
  intros Hm Hhit s.
  apply (replaceAll_ind m Hm
    (fun s out => forall x, adjacent R (x :: s) = false ->
                            adjacent R (x :: out) = false)).
  - auto.
  - intros c t _ IH x H. rewrite adjacent_cons.
    rewrite (adjacent_head _ _ _ H). apply IH. now apply adjacent_tail in H.
  - intros s0 r n E IH x H.
    destruct (Hhit _ _ _ E (adjacent_tail _ _ H)) as (p & -> & Hx & Hp).
    cbn [app]. rewrite adjacent_cons, (Hx _ H). now apply IH.
Qed.

Lemma replaceAll_adjacent (m : matcher) :
  proper m ->
  (forall s r n, m s = Some (r, n) -> adjacent R s = false ->
     exists p, r = [p]
       /\ (forall x, adjacent R (x :: s) = false -> R x p = false)
       /\ adjacent R (p :: skipn n s) = false) ->
  forall s, adjacent R s = false -> adjacent R (replaceAll m s) = false.
Proof.
  intros Hm Hhit [|c t] H.
  - now rewrite replaceAll_nil.
  - destruct (m (c :: t)) as [[r n]|] eqn:E.
    + rewrite (replaceAll_hit m Hm _ _ _ E).
      destruct (Hhit _ _ _ E H) as (p & -> & _ & Hp).
      cbn [app]. now apply replaceAll_adjacent_left.
    + rewrite (replaceAll_miss m _ _ E). now apply replaceAll_adjacent_left.
Qed.

End Adjacent.

(** [includes] of a two-unit text is a question about neighbours. *)
Lemma includes_pair x y s :
  includes [x; y] s = adjacent (fun a b => (a =? x)%N && (b =? y)%N) s.
Proof.
  induction s as [|a t IH]; [reflexivity|].
  rewrite adjacent_cons, <- IH. destruct t as [|b t'].
  - simpl. now rewrite andb_false_r.
  - cbn [includes startsWith]. rewrite andb_true_r.
    now rewrite (N.eqb_sym x a), (N.eqb_sym y b).
Qed.

Lemma onlySpaces_spec s :
  onlySpaces s = true <-> forall c, In c s -> is_ws c = true -> c = SPACE.
Proof.
  unfold onlySpaces. rewrite forallb_forall. split; intros H c Hc.
  - intros Hw. specialize (H c Hc). rewrite Hw in H. now apply N.eqb_eq in H.
  - destruct (is_ws c) eqn:Hw; [|reflexivity].
    simpl. apply N.eqb_eq. now apply H.
Qed.

Lemma spaceAtPunct_right x p : is_punct p = true -> spaceAtPunct x p = (x =? SPACE)%N.
Proof.
  intros H. unfold spaceAtPunct.
  now rewrite H, (punct_not_space _ H), andb_true_r, andb_false_r, orb_false_r.
Qed.

Lemma twoSpaces_punct_r x p : is_punct p = true -> twoSpaces x p = false.
Proof.
  intros H. unfold twoSpaces. now rewrite (punct_not_space _ H), andb_false_r.
Qed.

Lemma twoSpaces_punct_l p x : is_punct p = true -> twoSpaces p x = false.
Proof.
  intros H. unfold twoSpaces. now rewrite (punct_not_space _ H).
Qed.

(* ================================================================== *)
(** * What each pass establishes and keeps *)
(* ================================================================== *)

Lemma space_is_ws c : is_ws c = false -> (c =? SPACE)%N = false.
Proof.
  intros H. destruct (c =? SPACE)%N eqn:E; [|reflexivity].
  apply N.eqb_eq in E. subst c. vm_compute in H. discriminate.
Qed.

Lemma wsRun_zero c t : wsRun (c :: t) = 0 -> is_ws c = false.
Proof. simpl. destruct (is_ws c); [discriminate|reflexivity]. Qed.

(** ** Second pass: runs of whitespace become one space *)

Lemma collapseSpaces_onlySpaces s : onlySpaces (collapseSpaces s) = true.
Proof.
  unfold collapseSpaces.
  apply (replaceAll_ind reSpaces reSpaces_proper
           (fun _ out => onlySpaces out = true)).
  - reflexivity.
  - intros c t E IH. apply reSpaces_miss in E.
    unfold onlySpaces in *. simpl. now rewrite E, IH.
  - intros s0 r n E IH. apply reSpaces_hit in E as (-> & _ & _). exact IH.
Qed.

Lemma collapseSpaces_head s :
  wsRun s = 0 -> headIs SPACE (collapseSpaces s) = false.
Proof.
  unfold collapseSpaces. destruct s as [|c t]; intros H.
  - now rewrite (replaceAll_nil _ reSpaces_proper).
  - apply wsRun_zero in H.
    rewrite replaceAll_miss by (unfold reSpaces; simpl; now rewrite H).
    simpl. now apply space_is_ws.
Qed.

Lemma collapseSpaces_twoSpaces s :
  adjacent twoSpaces (collapseSpaces s) = false.
Proof.
  unfold collapseSpaces.
  apply (replaceAll_ind reSpaces reSpaces_proper
           (fun _ out => adjacent twoSpaces out = false)).
  - reflexivity.
  - intros c t E IH. apply reSpaces_miss, space_is_ws in E.
    rewrite adjacent_cons, IH, orb_false_r. unfold twoSpaces.
    rewrite E. now destruct (replaceAll reSpaces t).
  - intros s0 r n E IH. apply reSpaces_hit in E as (-> & -> & _).
    cbn [app]. rewrite adjacent_cons, IH, orb_false_r.
    pose proof (collapseSpaces_head _ (wsRun_skipn s0)) as Hh.
    unfold collapseSpaces in Hh.
    destruct (replaceAll reSpaces (skipn (wsRun s0) s0)); [reflexivity|].
    simpl in Hh. unfold twoSpaces. now rewrite Hh, andb_false_r.
Qed.

(** ** Third pass: no space is left next to [{ } : ;] *)

Lemma rePunct_punct p t :
  is_punct p = true -> rePunct (p :: t) = Some ([p], 1 + wsRun t).
Proof.
  intros H. unfold rePunct. simpl. rewrite (punct_not_ws _ H). simpl.
  now rewrite H.
Qed.

Lemma rePunct_ws_cons c t r n :
  is_ws c = true -> rePunct t = Some (r, n) -> rePunct (c :: t) = Some (r, S n).
Proof.
  intros Hc. unfold rePunct. simpl. rewrite Hc. simpl.
  destruct (skipn (wsRun t) t) as [|p u]; [discriminate|].
  destruct (is_punct p); [|discriminate]. now intros [= <- <-].
Qed.

Lemma rePunct_miss_not_punct c t : rePunct (c :: t) = None -> is_punct c = false.
Proof.
  intros E. destruct (is_punct c) eqn:H; [|reflexivity].
  rewrite (rePunct_punct _ t H) in E. discriminate.
Qed.

Lemma trimPunct_head s : wsRun s = 0 -> headIs SPACE (trimPunct s) = false.
Proof.
  unfold trimPunct. destruct s as [|c t]; intros H.
  - now rewrite (replaceAll_nil _ rePunct_proper).
  - apply wsRun_zero in H. destruct (rePunct (c :: t)) as [[r n]|] eqn:E.
    + rewrite (replaceAll_hit _ rePunct_proper _ _ _ E).
      apply rePunct_hit in E as (p & u & _ & Hp & -> & _).
      simpl. now apply punct_not_space.
    + rewrite (replaceAll_miss _ _ _ E). simpl. now apply space_is_ws.
Qed.

Lemma trimPunct_clean s : adjacent spaceAtPunct (trimPunct s) = false.
Proof.
  unfold trimPunct.
  apply (replaceAll_ind rePunct rePunct_proper
           (fun _ out => adjacent spaceAtPunct out = false)).
  - reflexivity.
  - intros c t E IH. rewrite adjacent_cons, IH, orb_false_r.
    pose proof (rePunct_miss_not_punct _ _ E) as Hc.
    destruct t as [|d t']; [now rewrite (replaceAll_nil _ rePunct_proper)|].
    destruct (rePunct (d :: t')) as [[r n]|] eqn:Ed.
    + rewrite (replaceAll_hit _ rePunct_proper _ _ _ Ed).
      pose proof Ed as Ed'.
      apply rePunct_hit in Ed' as (p & u & _ & Hp & -> & _).
      cbn [app]. rewrite (spaceAtPunct_right _ _ Hp).
      destruct (c =? SPACE)%N eqn:Hs; [|reflexivity].
      apply N.eqb_eq in Hs. subst c.
      rewrite (rePunct_ws_cons SPACE _ _ _ eq_refl Ed) in E. discriminate.
    + rewrite (replaceAll_miss _ _ _ Ed). unfold spaceAtPunct.
      rewrite Hc, (rePunct_miss_not_punct _ _ Ed). simpl.
      now rewrite andb_false_r.
  - intros s0 r n E IH. apply rePunct_hit in E as (p & u & _ & Hp & -> & _ & Hr).
    cbn [app]. rewrite adjacent_cons, IH, orb_false_r. rewrite Hr.
    pose proof (trimPunct_head _ (wsRun_skipn u)) as Hh. unfold trimPunct in Hh.
    destruct (replaceAll rePunct (skipn (wsRun u) u)); [reflexivity|].
    simpl in Hh. unfold spaceAtPunct.
    now rewrite Hh, (punct_not_space _ Hp), andb_false_r.
Qed.

Lemma trimPunct_twoSpaces s :
  adjacent twoSpaces s = false -> adjacent twoSpaces (trimPunct s) = false.
Proof.
  apply replaceAll_adjacent; [exact rePunct_proper|].
  intros s0 r n E H. apply rePunct_hit in E as (p & u & _ & Hp & -> & _ & _).
  exists p. split; [reflexivity|]. split.
  - intros x _. now apply twoSpaces_punct_r.
  - rewrite adjacent_cons, (adjacent_skipn _ _ _ H), orb_false_r.
    destruct (skipn _ s0); [reflexivity|]. now apply twoSpaces_punct_l.
Qed.

Lemma trimPunct_onlySpaces s :
  onlySpaces s = true -> onlySpaces (trimPunct s) = true.
Proof.
  rewrite !onlySpaces_spec. intros H c Hc Hw.
  destruct (replaceAll_In rePunct rePunct_proper
              (fun c => is_punct c = true)) with (s := s) (c := c)
    as [Hi|Hp]; auto.
  - intros s0 r n E d Hd. right.
    apply rePunct_hit in E as (p & u & _ & Hp & -> & _).
    destruct Hd as [<-|[]]. exact Hp.
  - rewrite (punct_not_ws _ Hp) in Hw. discriminate.
Qed.

(** ** Fourth pass: a semicolon before a closing brace goes *)

Lemma dropLastSemi_twoSpaces s :
  adjacent twoSpaces s = false -> adjacent twoSpaces (dropLastSemi s) = false.
Proof.
  apply replaceAll_adjacent; [exact reSemiBrace_proper|].
  intros s0 r n E H. apply reSemiBrace_hit in E as (t & -> & -> & ->).
  exists RBRACE. split; [reflexivity|]. split.
  - intros x _. now apply twoSpaces_punct_r.
  - simpl skipn. now apply adjacent_tail in H.
Qed.

Lemma dropLastSemi_clean s :
  adjacent spaceAtPunct s = false ->
  adjacent spaceAtPunct (dropLastSemi s) = false.
Proof.
  apply replaceAll_adjacent; [exact reSemiBrace_proper|].
  intros s0 r n E H. apply reSemiBrace_hit in E as (t & -> & -> & ->).
  exists RBRACE. split; [reflexivity|]. split.
  - intros x Hx. apply adjacent_head in Hx.
    rewrite spaceAtPunct_right in * by reflexivity. exact Hx.
  - simpl skipn. now apply adjacent_tail in H.
Qed.

Lemma dropLastSemi_onlySpaces s :
  onlySpaces s = true -> onlySpaces (dropLastSemi s) = true.
Proof.
  rewrite !onlySpaces_spec. intros H c Hc Hw.
  destruct (replaceAll_In reSemiBrace reSemiBrace_proper
              (fun c => is_punct c = true)) with (s := s) (c := c)
    as [Hi|Hp]; auto.
  - intros s0 r n E d Hd. right.
    apply reSemiBrace_hit in E as (t & -> & -> & ->).
    destruct Hd as [<-|[]]. reflexivity.
  - rewrite (punct_not_ws _ Hp) in Hw. discriminate.
Qed.

(** ** The output of [minifyCss] *)

Lemma minifyCss_twoSpaces T : adjacent twoSpaces (minifyCss T) = false.
Proof.
  apply dropLastSemi_twoSpaces, trimPunct_twoSpaces, collapseSpaces_twoSpaces.
Qed.

Lemma minifyCss_onlySpaces T : onlySpaces (minifyCss T) = true.
Proof.
  apply dropLastSemi_onlySpaces, trimPunct_onlySpaces, collapseSpaces_onlySpaces.
Qed.

Lemma minifyCss_clean T : adjacent spaceAtPunct (minifyCss T) = false.
Proof. apply dropLastSemi_clean, trimPunct_clean. Qed.

(* ================================================================== *)
(** * Texts that a pass leaves alone *)
(* ================================================================== *)

Lemma includes_tail p c t : includes p (c :: t) = false -> includes p t = false.
Proof.
  cbn [includes]. intros H. now apply orb_false_elim in H.
Qed.

Lemma matchesSomewhere_head m s : matchesSomewhere m s = false -> m s = None.
Proof.
  destruct s; simpl; destruct (m _); auto; discriminate.
Qed.

Lemma matchesSomewhere_tail m c t :
  matchesSomewhere m (c :: t) = false -> matchesSomewhere m t = false.
Proof.
  simpl. destruct (m (c :: t)); [discriminate|auto].
Qed.

Lemma replaceAll_no_match m s :
  proper m -> matchesSomewhere m s = false -> replaceAll m s = s.
Proof.
  intros Hm. apply (replaceAll_fixed m Hm (fun s => matchesSomewhere m s = false)).
  - apply matchesSomewhere_tail.
  - intros s0 r n H E. apply matchesSomewhere_head in H. congruence.
Qed.

Lemma removeComments_fixed s : hasComment s = false -> removeComments s = s.
Proof. apply replaceAll_no_match, reComment_proper. Qed.

Lemma lone_space c t :
  onlySpaces (c :: t) = true -> adjacent twoSpaces (c :: t) = false ->
  is_ws c = true -> c = SPACE /\ wsRun t = 0.
Proof.
  intros Ho Ha Hc. rewrite onlySpaces_spec in Ho.
  assert (c = SPACE) as -> by (apply Ho; [now left | exact Hc]).
  split; [reflexivity|]. destruct t as [|d u]; [reflexivity|].
  simpl. destruct (is_ws d) eqn:Hd; [|reflexivity].
  assert (d = SPACE) as -> by (apply Ho; [right; now left | exact Hd]).
  apply adjacent_head in Ha. discriminate.
Qed.

Lemma onlySpaces_tail c t : onlySpaces (c :: t) = true -> onlySpaces t = true.
Proof.
  unfold onlySpaces. simpl. intros H. now apply andb_prop in H.
Qed.

Lemma collapseSpaces_fixed s :
  onlySpaces s = true -> adjacent twoSpaces s = false -> collapseSpaces s = s.
Proof.
  intros Ho Ha.
  apply (replaceAll_fixed reSpaces reSpaces_proper
           (fun s => onlySpaces s = true /\ adjacent twoSpaces s = false));
    [| |now split].
  - intros c t [H1 H2]. split; [eapply onlySpaces_tail | eapply adjacent_tail]; eauto.
  - intros s0 r n [H1 H2] E.
    apply reSpaces_hit in E as (-> & -> & c & t & -> & Hc).
    destruct (lone_space _ _ H1 H2 Hc) as [-> Ht].
    simpl. rewrite Ht. reflexivity.
Qed.

Lemma trimPunct_fixed s :
  onlySpaces s = true -> adjacent twoSpaces s = false ->
  adjacent spaceAtPunct s = false -> trimPunct s = s.
Proof.
  intros Ho Ha Hp.
  apply (replaceAll_fixed rePunct rePunct_proper
           (fun s => onlySpaces s = true /\ adjacent twoSpaces s = false
                     /\ adjacent spaceAtPunct s = false));
    [| |now repeat split].
  - intros c t (H1 & H2 & H3).
    repeat split;
      [eapply onlySpaces_tail | eapply adjacent_tail | eapply adjacent_tail]; eauto.
  - intros s0 r n (H1 & H2 & H3) E.
    apply rePunct_hit in E as (p & u & Hs & Hpu & -> & -> & _).
    destruct s0 as [|c t]; [discriminate|].
    destruct (is_ws c) eqn:Hc.
    + exfalso. destruct (lone_space _ _ H1 H2 Hc) as [-> Ht].
      simpl in Hs. rewrite Ht in Hs. simpl in Hs. subst t.
      apply adjacent_head in H3. rewrite spaceAtPunct_right in H3 by exact Hpu.
      discriminate.
    + simpl in Hs |- *. rewrite Hc in Hs |- *. simpl in Hs. injection Hs as -> ->.
      assert (wsRun u = 0) as ->; [|reflexivity].
      destruct u as [|d v]; [reflexivity|]. simpl.
      destruct (is_ws d) eqn:Hd; [|reflexivity]. exfalso.
      rewrite onlySpaces_spec in H1.
      assert (d = SPACE) as -> by (apply H1; [right; now left | exact Hd]).
      apply adjacent_head in H3. unfold spaceAtPunct in H3.
      rewrite Hpu in H3. simpl in H3. now rewrite orb_true_r in H3.
Qed.

Lemma dropLastSemi_fixed s :
  includes [SEMI; RBRACE] s = false -> dropLastSemi s = s.
Proof.
  apply (replaceAll_fixed reSemiBrace reSemiBrace_proper
           (fun s => includes [SEMI; RBRACE] s = false)).
  - intros c t. apply includes_tail.
  - intros s0 r n H E. apply reSemiBrace_hit in E as (t & -> & -> & ->).
    discriminate.
Qed.

(* ================================================================== *)
(** * Occurrences of one text in another *)
(* ================================================================== *)

Lemma startsWith_app p b : startsWith p (p ++ b) = true.
Proof.
  induction p as [|a p IH]; [reflexivity|]. simpl. now rewrite N.eqb_refl.
Qed.

Lemma startsWith_inv p : forall s, startsWith p s = true -> exists b, s = p ++ b.
Proof.
  induction p as [|a p IH]; intros s H; [now exists s|].
  destruct s as [|c t]; [discriminate|]. simpl in H.
  apply andb_prop in H as [Ha Hp]. apply N.eqb_eq in Ha. subst c.
  destruct (IH _ Hp) as [b ->]. now exists b.
Qed.

Lemma includes_app p a b : includes p (a ++ p ++ b) = true.
Proof.
  induction a as [|c a IH].
  - simpl app. destruct (p ++ b) eqn:E; cbn [includes];
      rewrite <- E, startsWith_app; reflexivity.
  - simpl app. cbn [includes]. rewrite IH. apply orb_true_r.
Qed.

Lemma includes_inv p : forall s,
  includes p s = true -> exists a b, s = a ++ p ++ b.
Proof.
  induction s as [|c t IH]; cbn [includes]; intros H.
  - rewrite orb_false_r in H. apply startsWith_inv in H as [b ->].
    now exists [], b.
  - apply orb_prop in H as [H|H].
    + apply startsWith_inv in H as [b ->]. now exists [], b.
    + destruct (IH H) as (a & b & ->). now exists (c :: a), b.
Qed.

Lemma includes_In p s c : includes p s = true -> In c p -> In c s.
Proof.
  intros H Hc. apply includes_inv in H as (a & b & ->).
  apply in_or_app. right. apply in_or_app. now left.
Qed.

(** A pair of code units that no match ever covers survives the pass. *)
Lemma replaceAll_keeps_pair m x y :
  proper m -> untouched m x -> untouched m y ->
  forall s, includes [x; y] s = true -> includes [x; y] (replaceAll m s) = true.
Proof.
  intros Hm Hx Hy s H. apply includes_inv in H as (a & b & ->).
  assert (exists a' b', replaceAll m (a ++ [x; y] ++ b) = a' ++ [x; y] ++ b')
    as (a' & b' & ->); [|apply includes_app].
  remember (length a) as k eqn:Hk. revert a Hk.
  induction k as [k IH] using lt_wf_ind. intros a Hk.
  destruct a as [|c a].
  - cbn [app]. exists [], (replaceAll m b).
    assert (m (x :: y :: b) = None) as E1.
    { destruct (m (x :: y :: b)) as [[r n]|] eqn:E; [|reflexivity].
      pose proof (Hx [] _ _ _ E). destruct Hm as [_ B].
      pose proof (B _ _ _ E). simpl in *. lia. }
    assert (m (y :: b) = None) as E2.
    { destruct (m (y :: b)) as [[r n]|] eqn:E; [|reflexivity].
      pose proof (Hy [] _ _ _ E). destruct Hm as [_ B].
      pose proof (B _ _ _ E). simpl in *. lia. }
    now rewrite (replaceAll_miss _ _ _ E1), (replaceAll_miss _ _ _ E2).
  - destruct (m ((c :: a) ++ [x; y] ++ b)) as [[r n]|] eqn:E.
    + rewrite (replaceAll_hit _ Hm _ _ _ E).
      pose proof (Hx _ _ _ _ E) as Hn. destruct Hm as [_ B].
      pose proof (B _ _ _ E) as [Hn1 _].
      rewrite skipn_app. replace (n - length (c :: a)) with 0 by lia.
      cbn [skipn].
      destruct (IH (length (skipn n (c :: a)))) with (a := skipn n (c :: a))
        as (a' & b' & ->); [|reflexivity|].
      * rewrite length_skipn. cbn [length] in *. lia.
      * exists (r ++ a'), b'. now rewrite app_assoc.
    + cbn [app] in E |- *. rewrite (replaceAll_miss _ _ _ E).
      destruct (IH (length a)) with (a := a) as (a' & b' & Ha);
        [simpl in Hk; lia | reflexivity |].
      cbn [app] in Ha. rewrite Ha. now exists (c :: a'), b'.
Qed.

Lemma reSpaces_untouched x : is_ws x = false -> untouched reSpaces x.
Proof.
  intros Hx a b r n E. apply reSpaces_hit in E as (_ & -> & _).
  now apply wsRun_stops.
Qed.

Lemma rePunct_untouched x :
  is_ws x = false -> is_punct x = false -> untouched rePunct x.
Proof.
  intros Hw Hp a b r n E.
  apply rePunct_hit in E as (p & u & Hs & Hpu & _ & -> & _).
  pose proof (wsRun_stops a x b Hw) as Hk.
  rewrite skipn_app in Hs.
  replace (wsRun (a ++ x :: b) - length a) with 0 in Hs by lia.
  cbn [skipn] in Hs.
  pose proof (length_skipn (wsRun (a ++ x :: b)) a) as L.
  destruct (skipn (wsRun (a ++ x :: b)) a) as [|q a2].
  - simpl in Hs. injection Hs as -> _. congruence.
  - simpl in Hs. injection Hs as -> <-.
    pose proof (wsRun_stops a2 x b Hw). simpl in L. lia.
Qed.

Lemma reSemiBrace_untouched x : is_punct x = false -> untouched reSemiBrace x.
Proof.
  intros Hp a b r n E. apply reSemiBrace_hit in E as (t & Hs & _ & ->).
  destruct a as [|c [|d a]]; simpl in *; try lia; exfalso.
  - injection Hs as -> _. discriminate.
  - injection Hs as _ -> _. discriminate.
Qed.

(** Every code unit of the minified text is a code unit of the text
    behind the comment pass, or the space of the second pass. *)
Lemma minifyCss_In T c :
  In c (minifyCss T) -> In c (removeComments T) \/ c = SPACE.
Proof.
  unfold minifyCss, dropLastSemi, trimPunct, collapseSpaces. intros H.
  apply (replaceAll_In _ reSemiBrace_proper (fun c => c = SPACE)) in H.
  2:{ intros s r n E d Hd. apply reSemiBrace_hit in E as (t & -> & -> & _).
      destruct Hd as [<-|[]]. left. right. now left. }
  destruct H as [H|H]; [|now right].
  apply (replaceAll_In _ rePunct_proper (fun c => c = SPACE)) in H.
  2:{ intros s r n E d Hd. apply rePunct_hit in E as (p & u & Hs & _ & -> & _).
      destruct Hd as [<-|[]]. left.
      rewrite <- (firstn_skipn (wsRun s) s), Hs. apply in_or_app. right. now left. }
  destruct H as [H|H]; [|now right].
  apply (replaceAll_In _ reSpaces_proper (fun c => c = SPACE)) in H.
  2:{ intros s r n E d Hd. apply reSpaces_hit in E as (-> & _).
      destruct Hd as [<-|[]]. now right. }
  exact H.
Qed.

Lemma removeComments_In s c : In c (removeComments s) -> In c s.
Proof.
  intros H.
  apply (replaceAll_In _ reComment_proper (fun _ => False)) in H; [tauto|].
  intros s0 r n E d Hd. apply reComment_hit in E as (t & k & _ & _ & -> & _).
  destruct Hd.
Qed.

(* ================================================================== *)
(** * Block comments *)
(* ================================================================== *)

Lemma closeAt_includes s k :
  closeAt s = Some k -> includes [STAR; SLASH] s = true.
Proof.
  revert k. induction s as [|c t IH]; intros k H; [discriminate|].
  simpl in H. cbn [includes].
  destruct ((c =? STAR)%N && headIs SLASH t) eqn:E.
  - apply andb_prop in E as [Ec Et]. apply N.eqb_eq in Ec. subst c.
    destruct t as [|d u]; [discriminate|]. simpl in Et.
    apply N.eqb_eq in Et. subst d. reflexivity.
  - destruct (closeAt t) as [j|]; [|discriminate].
    rewrite (IH j eq_refl). apply orb_true_r.
Qed.

Lemma closeAt_none s : includes [STAR; SLASH] s = false -> closeAt s = None.
Proof.
  intros H. destruct (closeAt s) as [k|] eqn:E; [|reflexivity].
  apply closeAt_includes in E. congruence.
Qed.

Lemma hasComment_needs_close s :
  includes [STAR; SLASH] s = false -> hasComment s = false.
Proof.
  unfold hasComment. induction s as [|c t IH]; intros H; [reflexivity|].
  cbn [matchesSomewhere]. rewrite (IH (includes_tail _ _ _ H)).
  destruct (reComment (c :: t)) as [[r n]|] eqn:E; [|reflexivity].
  apply reComment_hit in E as (u & k & Hs & Hk & _). injection Hs as -> ->.
  apply closeAt_includes in Hk.
  apply includes_tail, includes_tail in H. congruence.
Qed.

(** No comment starts in a text without ["/*"], whatever follows it,
    unless what follows starts with a star. *)
Lemma reComment_before pre c X :
  includes [SLASH; STAR] (c :: pre) = false -> headIs STAR X = false ->
  reComment (c :: pre ++ X) = None.
Proof.
  intros H HX. destruct pre as [|d pre]; cbn [app].
  - destruct X as [|x X]; [reflexivity|]. simpl in HX |- *.
    now rewrite HX, andb_false_r.
  - cbn [includes startsWith] in H. apply orb_false_elim in H as [H _].
    rewrite andb_true_r in H. simpl.
    now rewrite (N.eqb_sym c), (N.eqb_sym d), H.
Qed.

Lemma removeComments_before pre X :
  includes [SLASH; STAR] pre = false -> headIs STAR X = false ->
  removeComments (pre ++ X) = pre ++ removeComments X.
Proof.
  intros H HX. induction pre as [|c pre IH]; [reflexivity|].
  unfold removeComments in *. cbn [app].
  rewrite (replaceAll_miss _ _ _ (reComment_before _ _ _ H HX)).
  f_equal. apply IH. eapply includes_tail; eauto.
Qed.

Lemma closeAt_body body post :
  includes [STAR; SLASH] body = false ->
  closeAt (body ++ STAR :: SLASH :: post) = Some (length body + 2).
Proof.
  induction body as [|c b IH]; intros H; [reflexivity|].
  cbn [app closeAt length]. rewrite (IH (includes_tail _ _ _ H)).
  assert ((c =? STAR)%N && headIs SLASH (b ++ STAR :: SLASH :: post) = false)
    as ->; [|reflexivity].
  destruct b as [|d b]; cbn [app headIs].
  - apply andb_false_r.
  - cbn [includes startsWith] in H. apply orb_false_elim in H as [H _].
    rewrite andb_true_r in H. now rewrite (N.eqb_sym c), (N.eqb_sym d).
Qed.

Lemma removeComments_comment body post :
  includes [STAR; SLASH] body = false ->
  removeComments (SLASH :: STAR :: body ++ STAR :: SLASH :: post)
  = removeComments post.
Proof.
  intros H. unfold removeComments.
  assert (reComment (SLASH :: STAR :: body ++ STAR :: SLASH :: post)
          = Some ([], 2 + (length body + 2))) as E.
  { simpl. now rewrite (closeAt_body _ _ H). }
  rewrite (replaceAll_hit _ reComment_proper _ _ _ E). cbn [app plus skipn].
  rewrite skipn_app, skipn_all2 by lia.
  replace (length body + 2 - length body) with 2 by lia. reflexivity.
Qed.

Lemma hasComment_unclosed pre rest :
  includes [SLASH; STAR] pre = false -> includes [STAR; SLASH] rest = false ->
  hasComment (pre ++ SLASH :: STAR :: rest) = false.
Proof.
  intros Hp Hr. unfold hasComment.
  induction pre as [|c pre IH].
  - assert (reComment (SLASH :: STAR :: rest) = None) as E1
      by (simpl; now rewrite (closeAt_none _ Hr)).
    assert (reComment (STAR :: rest) = None) as E2
      by (destruct rest; reflexivity).
    cbn [app matchesSomewhere]. rewrite E1, E2.
    now apply hasComment_needs_close.
  - cbn [app matchesSomewhere].
    rewrite (reComment_before pre c (SLASH :: STAR :: rest) Hp eq_refl).
    apply IH. eapply includes_tail; eauto.
Qed.

(* ================================================================== *)
(** * Lines *)
(* ================================================================== *)

Lemma split_nonempty sep s : split sep s <> [].
Proof.
  destruct s as [|c t]; simpl; [discriminate|].
  destruct (c =? sep)%N; [discriminate|]. destruct (split sep t); discriminate.
Qed.

Lemma split_length sep s :
  length (split sep s) = S (count_occ N.eq_dec s sep).
Proof.
  induction s as [|c t IH]; [reflexivity|]. simpl.
  destruct (N.eqb_spec c sep) as [->|Hne].
  - destruct (N.eq_dec sep sep); [|congruence]. simpl. now rewrite IH.
  - destruct (N.eq_dec c sep); [congruence|].
    destruct (split sep t) eqn:E; [now apply split_nonempty in E|].
    simpl in *. exact IH.
Qed.

Lemma split_snoc sep s : split sep (s ++ [sep]) = split sep s ++ [[]].
Proof.
  induction s as [|c t IH]; simpl.
  - now rewrite N.eqb_refl.
  - rewrite IH. destruct (c =? sep)%N; [reflexivity|].
    destruct (split sep t) eqn:E; [now apply split_nonempty in E|reflexivity].
Qed.

Lemma join_split sep s : join [sep] (split sep s) = s.
Proof.
  induction s as [|c t IH]; [reflexivity|]. simpl.
  destruct (N.eqb_spec c sep) as [->|Hne].
  - destruct (split sep t) eqn:E; [now apply split_nonempty in E|].
    cbn [join app] in *. now rewrite IH.
  - destruct (split sep t) as [|seg segs] eqn:E; [now apply split_nonempty in E|].
    destruct segs; cbn [join app] in *; now rewrite IH.
Qed.

Lemma mapi_from_length {A B} (f : A -> nat -> B) xs :
  forall i, length (mapi_from f i xs) = length xs.
Proof.
  induction xs as [|x xs IH]; intros i; simpl; [reflexivity|]. now rewrite IH.
Qed.

Lemma mapi_from_field {A B C} (f : A -> nat -> B) (g : B -> C) (h : nat -> C) :
  (forall x j, g (f x j) = h j) ->
  forall xs i, map g (mapi_from f i xs) = map h (seq i (length xs)).
Proof.
  intros Hf. induction xs as [|x xs IH]; intros i; simpl; [reflexivity|].
  now rewrite Hf, IH.
Qed.

Lemma mapi_from_same {A B} (f : A -> nat -> B) (g : B -> A) :
  (forall x j, g (f x j) = x) ->
  forall xs i, map g (mapi_from f i xs) = xs.
Proof.
  intros Hf. induction xs as [|x xs IH]; intros i; simpl; [reflexivity|].
  now rewrite Hf, IH.
Qed.

(* ================================================================== *)
(** * The scenarios of the specification *)
(* ================================================================== *)

Example scenario_simple :
  minifyCss (lit "body {
  font-size: 16px;
  background-color: #fff;
}") = lit "body{font-size:16px;background-color:#fff}".
Proof. vm_compute. reflexivity. Qed.

(** The blank lines behind the comment are left as one leading space. *)
Example scenario_comment :
  minifyCss (lit "/* comment */

body { color: red; }") = lit " body{color:red}".
Proof. vm_compute. reflexivity. Qed.

Example scenario_variables :
  minifyCss (lit ":root {
  --main-bg-color: #fff;
}") = lit ":root{--main-bg-color:#fff}".
Proof. vm_compute. reflexivity. Qed.

Example scenario_empty :
  minifyCss [] = []
  /\ mappings (generateSourceMap [] (lit "styles.css"))
     = [ {| original := []; generated := lit "1:0" |} ].
Proof. vm_compute. split; reflexivity. Qed.

Example scenario_walk :
  let run := startMinification 2 (lit "css")
               (Build_World (node := Memory.runtime) Memory.sample []) in
  fst run = Returned tt
  /\ Memory.written (trace (snd run))
     = [ lit "css/a.min.css"; lit "css/a.css.map";
         lit "css/sub/b.min.css"; lit "css/sub/b.css.map" ].
Proof. vm_compute. split; reflexivity. Qed.

(* ================================================================== *)
(** * The minifier *)
(* ================================================================== *)

(** C1, as amended: minifying a second time changes nothing whenever the
    minified text holds no closed block comment and no [";}"]; every
    pass then finds only matches that it replaces by themselves. *)
Theorem minifyCss_idempotent_when_settled T :
  hasComment (minifyCss T) = false ->
  includes (lit ";}") (minifyCss T) = false ->
  minifyCss (minifyCss T) = minifyCss T.
Proof.
  intros Hc Hs. unfold minifyCss at 1.
  rewrite (removeComments_fixed _ Hc).
  rewrite (collapseSpaces_fixed _ (minifyCss_onlySpaces T) (minifyCss_twoSpaces T)).
  rewrite (trimPunct_fixed _ (minifyCss_onlySpaces T) (minifyCss_twoSpaces T)
             (minifyCss_clean T)).
  now apply dropLastSemi_fixed.
Qed.

Lemma minifyCss_idempotent_witness :
  let T := lit "a { b : c ; }  /* d */" in
  hasComment (minifyCss T) = false
  /\ includes (lit ";}") (minifyCss T) = false
  /\ minifyCss (minifyCss T) = minifyCss T.
Proof.
  split; [reflexivity|]. split; [reflexivity|].
  apply minifyCss_idempotent_when_settled; reflexivity.
Defined.

(** C1 as stated fails: removing the comment of ["//* */*x*/"] brings
    ["/*"] and ["x*/"] together, and a second run removes the comment
    that the first one built. *)
Lemma minifyCss_not_idempotent :
  minifyCss (lit "//* */*x*/") = lit "/*x*/"
  /\ minifyCss (minifyCss (lit "//* */*x*/")) = []
  /\ minifyCss (minifyCss (lit "//* */*x*/")) <> minifyCss (lit "//* */*x*/").
Proof.
  split; [reflexivity|]. split; [reflexivity|]. vm_compute. discriminate.
Qed.

(** C2: of two semicolons before a closing brace only one is removed, so
    the minified text can hold [";}"]. *)
Theorem minifyCss_double_semicolon :
  minifyCss (lit "a{color:red;;}") = lit "a{color:red;}"
  /\ includes (lit ";}") (minifyCss (lit "a{color:red;;}")) = true.
Proof. vm_compute. split; reflexivity. Qed.

(** C3, as amended: when the first ["/*"] of the text has no ["*/"]
    behind it, the comment pass returns the text unchanged, and the
    minified text still holds ["/*"]. *)
Theorem unclosed_comment_kept pre rest :
  includes (lit "/*") pre = false ->
  includes (lit "*/") rest = false ->
  removeComments (pre ++ lit "/*" ++ rest) = pre ++ lit "/*" ++ rest
  /\ includes (lit "/*") (minifyCss (pre ++ lit "/*" ++ rest)) = true.
Proof.
  change (lit "/*") with [SLASH; STAR]. change (lit "*/") with [STAR; SLASH].
  intros Hp Hr.
  assert (removeComments (pre ++ [SLASH; STAR] ++ rest)
          = pre ++ [SLASH; STAR] ++ rest) as E
    by (apply removeComments_fixed, hasComment_unclosed; assumption).
  split; [exact E|]. unfold minifyCss. rewrite E.
  apply replaceAll_keeps_pair;
    [exact reSemiBrace_proper | now apply reSemiBrace_untouched
     | now apply reSemiBrace_untouched |].
  apply replaceAll_keeps_pair;
    [exact rePunct_proper | now apply rePunct_untouched
     | now apply rePunct_untouched |].
  apply replaceAll_keeps_pair;
    [exact reSpaces_proper | now apply reSpaces_untouched
     | now apply reSpaces_untouched |].
  apply includes_app.
Qed.

Lemma unclosed_comment_witness :
  let pre := lit "a { } " in
  let rest := lit " never closed" in
  includes (lit "/*") pre = false
  /\ includes (lit "*/") rest = false
  /\ removeComments (pre ++ lit "/*" ++ rest) = pre ++ lit "/*" ++ rest
  /\ includes (lit "/*") (minifyCss (pre ++ lit "/*" ++ rest)) = true.
Proof.
  split; [reflexivity|]. split; [reflexivity|].
  apply unclosed_comment_kept; reflexivity.
Defined.

(** C3 as stated fails: ["a/*b"] holds ["/*"] with no ["*/"] behind it,
    and the minified text is ["a/*b"], the unclosed comment included. *)
Lemma unclosed_comment_not_removed :
  includes (lit "*/") (lit "b") = false
  /\ minifyCss (lit "a" ++ lit "/*" ++ lit "b") = lit "a/*b"
  /\ includes (lit "/*b") (minifyCss (lit "a" ++ lit "/*" ++ lit "b")) = true.
Proof. vm_compute. repeat split; reflexivity. Qed.

(** C4, as amended: for the first comment of a text, closed at the
    first ["*/"] behind its ["/*"], the minified text is computed from
    what stands before and behind the comment alone; and when the
    comment holds a code unit, not the space, that occurs neither
    before nor behind it, its content occurs nowhere in the minified
    text. *)
Theorem first_comment_removed pre body post c :
  includes (lit "/*") pre = false ->
  includes (lit "*/") body = false ->
  In c body -> c <> SPACE -> ~ In c pre -> ~ In c post ->
  minifyCss (pre ++ lit "/*" ++ body ++ lit "*/" ++ post)
  = dropLastSemi (trimPunct (collapseSpaces (pre ++ removeComments post)))
  /\ includes body (minifyCss (pre ++ lit "/*" ++ body ++ lit "*/" ++ post))
     = false.
Proof.
  change (lit "/*") with [SLASH; STAR]. change (lit "*/") with [STAR; SLASH].
  intros Hp Hb Hc Hs Hpre Hpost.
  assert (removeComments (pre ++ [SLASH; STAR] ++ body ++ [STAR; SLASH] ++ post)
          = pre ++ removeComments post) as E.
  { rewrite (removeComments_before _ _ Hp) by reflexivity.
    f_equal. now apply removeComments_comment. }
  split; [unfold minifyCss; now rewrite E|].
  destruct (includes body _) eqn:Hi; [exfalso|reflexivity].
  apply (includes_In _ _ c) in Hi; [|exact Hc].
  apply minifyCss_In in Hi as [Hi|Hi]; [|contradiction].
  rewrite E in Hi. apply in_app_or in Hi as [Hi|Hi]; [contradiction|].
  apply removeComments_In in Hi. contradiction.
Qed.

Lemma first_comment_witness :
  let pre := lit "a{}" in
  let body := lit " x " in
  let post := lit "b{}" in
  minifyCss (pre ++ lit "/*" ++ body ++ lit "*/" ++ post)
  = dropLastSemi (trimPunct (collapseSpaces (pre ++ removeComments post)))
  /\ includes body (minifyCss (pre ++ lit "/*" ++ body ++ lit "*/" ++ post))
     = false.
Proof.
  apply (first_comment_removed (lit "a{}") (lit " x ") (lit "b{}") 120%N);
    try reflexivity.
  - right; left; reflexivity.
  - discriminate.
  - simpl; intuition discriminate.
  - simpl; intuition discriminate.
Defined.

(** C4 as stated fails: the content ["x"] of the comment of ["x/*x*/"]
    occurs in the minified text ["x"]; and in ["/**/*body*/"] the text
    ["/*body*/"] is not what the comment pass removes, so that ["body"]
    stays. *)
Lemma comment_content_may_remain :
  minifyCss (lit "x" ++ lit "/*" ++ lit "x" ++ lit "*/") = lit "x"
  /\ includes (lit "x")
       (minifyCss (lit "x" ++ lit "/*" ++ lit "x" ++ lit "*/")) = true
  /\ includes (lit "body")
       (minifyCss (lit "/**" ++ lit "/*" ++ lit "body" ++ lit "*/")) = true.
Proof. vm_compute. repeat split; reflexivity. Qed.

(** C5: the minified text never holds two neighbouring spaces, nor a
    newline, nor a tab. *)
Theorem minifyCss_whitespace T :
  includes [SPACE; SPACE] (minifyCss T) = false
  /\ ~ In LF (minifyCss T)
  /\ ~ In TAB (minifyCss T).
Proof.
  pose proof (minifyCss_onlySpaces T) as Ho. rewrite onlySpaces_spec in Ho.
  split; [|split].
  - rewrite includes_pair. apply (minifyCss_twoSpaces T).
  - intros H. specialize (Ho _ H eq_refl). discriminate.
  - intros H. specialize (Ho _ H eq_refl). discriminate.
Qed.

(** C6: in the minified text no space stands immediately before or
    immediately after one of [{ } : ;]. *)
Theorem minifyCss_no_space_at_punct T p :
  is_punct p = true ->
  includes [SPACE; p] (minifyCss T) = false
  /\ includes [p; SPACE] (minifyCss T) = false.
Proof.
  intros Hp. rewrite !includes_pair.
  split; apply (adjacent_weaken spaceAtPunct); try apply minifyCss_clean;
    intros a b H; apply andb_prop in H as [Ha Hb];
    apply N.eqb_eq in Ha, Hb; subst; unfold spaceAtPunct; rewrite Hp.
  - reflexivity.
  - apply orb_true_r.
Qed.

Lemma minifyCss_no_space_at_punct_witness :
  let T := lit " a { b : c ; } " in
  includes [SPACE; LBRACE] (minifyCss T) = false
  /\ includes [LBRACE; SPACE] (minifyCss T) = false.
Proof.
  apply minifyCss_no_space_at_punct. reflexivity.
Defined.

(* ================================================================== *)
(** * The source map *)
(* ================================================================== *)

(** C7: the map has one entry per segment of the text split at the
    newline, that is one more than the text has newlines; a final
    newline adds an empty last segment, and the empty text gives one
    entry. *)
Theorem generateSourceMap_mappings_length T name :
  length (mappings (generateSourceMap T name)) = length (split LF T)
  /\ length (split LF T) = S (count_occ N.eq_dec T LF)
  /\ split LF (T ++ [LF]) = split LF T ++ [[]]
  /\ length (mappings (generateSourceMap [] name)) = 1.
Proof.
  repeat split.
  - apply mapi_from_length.
  - apply split_length.
  - apply split_snoc.
Qed.

(** C8: the map has version 3, the given name as its file and as its
    only source, and for every index [i] the entry at index [i] is
    generated at line [i + 1], column 0. *)
Theorem generateSourceMap_fields T name i :
  version (generateSourceMap T name) = 3
  /\ file (generateSourceMap T name) = name
  /\ sources (generateSourceMap T name) = [name]
  /\ nth_error (map generated (mappings (generateSourceMap T name))) i
     = if i <? length (split LF T)
       then Some (numberToString (i + 1) ++ lit ":0")
       else None.
Proof.
  repeat split. cbn [generateSourceMap mappings]. unfold mapi.
  rewrite (mapi_from_field _ generated
             (fun i => numberToString (i + 1) ++ lit ":0"))
    by reflexivity.
  destruct (Nat.ltb_spec i (length (split LF T))) as [Hlt|Hge].
  - rewrite nth_error_map, nth_error_nth' with (d := 0)
      by (now rewrite length_seq).
    now rewrite seq_nth.
  - apply nth_error_None. now rewrite length_map, length_seq.
Qed.

(** C10: the original fields of the entries, joined by newlines, are the
    text itself. *)
Theorem generateSourceMap_join_original T name :
  join [LF] (map original (mappings (generateSourceMap T name))) = T.
Proof.
  cbn [generateSourceMap mappings]. unfold mapi.
  rewrite mapi_from_same by reflexivity. apply join_split.
Qed.

(* ================================================================== *)
(** * The run *)
(* ================================================================== *)

(** C9: when the target directory does not exist, the run announces
    itself, asks whether the directory exists, writes the diagnostic to
    standard error and returns: the disk is as before and nothing was
    listed, inspected, read or written. *)
Theorem missing_directory_halts {node : NodeRuntime} fuel root (w : World) :
  fs_existsSync (disk w) root = false ->
  let events :=
    [ ConsoleLog (lit "Starting CSS minification in: " ++ root);
      ExistsSync root;
      ConsoleError (lit "Target directory does not exist: " ++ root) ] in
  startMinification fuel root w
  = (Returned tt, {| disk := disk w; trace := trace w ++ events |})
  /\ existsb touchesFiles events = false.
Proof.
  intros H events. split; [|reflexivity].
  unfold startMinification, bind, console_log, existsSync, console_error, record.
  cbn [disk trace]. rewrite H. cbn [negb disk trace].
  rewrite <- !app_assoc. reflexivity.
Qed.

Lemma missing_directory_witness :
  let w := Build_World (node := Memory.runtime) Memory.sample [] in
  fs_existsSync (disk w) (lit "missing") = false
  /\ fst (startMinification 3 (lit "missing") w) = Returned tt
  /\ disk (snd (startMinification 3 (lit "missing") w)) = Memory.sample.
Proof.
  split; [reflexivity|].
  destruct (missing_directory_halts (node := Memory.runtime) 3 (lit "missing")
              (Build_World (node := Memory.runtime) Memory.sample [])
              eq_refl) as [E _].
  cbv zeta. rewrite E. split; reflexivity.
Defined.

(* ================================================================== *)
(** * Further properties of the replacement loop *)
(* ================================================================== *)

Section ReplaceAllMore.
Variable m : matcher.
Hypothesis m_proper : proper m.

(** No pass makes the text longer when its replacements are no longer
    than its matches, and a pass whose replacements are shorter makes
    the text shorter as soon as it matches somewhere. *)
Lemma replaceAll_length :
  (forall s r n, m s = Some (r, n) -> length r <= n) ->
  forall s, length (replaceAll m s) <= length s.
Proof.
  intros Hr s.
  apply (replaceAll_ind m m_proper (fun s out => length out <= length s)).
  - simpl; lia.
  - intros; simpl; lia.
  - intros s0 r n E IH. destruct m_proper as [_ B].
    pose proof (B _ _ _ E) as [Hn Hl]. pose proof (Hr _ _ _ E).
    rewrite length_app. rewrite length_skipn in IH. lia.
Qed.

Lemma replaceAll_shrinks :
  (forall s r n, m s = Some (r, n) -> length r < n) ->
  forall s, matchesSomewhere m s = true ->
            length (replaceAll m s) < length s.
Proof.
  intros Hr s.
  apply (replaceAll_ind m m_proper
    (fun s out => matchesSomewhere m s = true -> length out < length s)).
  - simpl. destruct m_proper as [-> _]. discriminate.
  - intros c t E IH H. simpl in H. rewrite E in H. simpl. apply IH in H. lia.
  - intros s0 r n E _ _. destruct m_proper as [_ B].
    pose proof (B _ _ _ E) as [Hn Hl]. pose proof (Hr _ _ _ E).
    assert (length (replaceAll m (skipn n s0)) <= length (skipn n s0))
      by (apply replaceAll_length; intros ? ? ? E'; apply Hr in E'; lia).
    rewrite length_app. rewrite length_skipn in *. lia.
Qed.

(** A pass keeps the code units selected by [f], in their order, when
    each replacement keeps those of its match. *)
Lemma replaceAll_filter (f : char -> bool) :
  (forall s r n, m s = Some (r, n) -> filter f r = filter f (firstn n s)) ->
  forall s, filter f (replaceAll m s) = filter f s.
Proof.
  intros Hr s.
  apply (replaceAll_ind m m_proper (fun s out => filter f out = filter f s)).
  - reflexivity.
  - intros c t _ IH. simpl. now rewrite IH.
  - intros s0 r n E IH.
    rewrite filter_app, (Hr _ _ _ E), IH, <- filter_app.
    now rewrite firstn_skipn.
Qed.

End ReplaceAllMore.

Lemma reSemiBrace_startsWith s :
  reSemiBrace s
  = if startsWith [SEMI; RBRACE] s then Some ([RBRACE], 2) else None.
Proof.
  destruct s as [|a [|b t]]; try reflexivity.
  - simpl. now rewrite andb_false_r.
  - simpl. now rewrite andb_true_r, (N.eqb_sym a), (N.eqb_sym b).
Qed.

Lemma matchesSomewhere_reSemiBrace s :
  matchesSomewhere reSemiBrace s = includes [SEMI; RBRACE] s.
Proof.
  induction s as [|c t IH]; [reflexivity|].
  cbn [matchesSomewhere includes]. rewrite reSemiBrace_startsWith, IH.
  now destruct (startsWith [SEMI; RBRACE] (c :: t)).
Qed.

Lemma removeComments_length s : length (removeComments s) <= length s.
Proof.
  apply replaceAll_length; [exact reComment_proper|].
  intros s0 r n E. apply reComment_hit in E as (t & k & _ & _ & -> & _).
  simpl; lia.
Qed.

Lemma collapseSpaces_length s : length (collapseSpaces s) <= length s.
Proof.
  apply replaceAll_length; [exact reSpaces_proper|].
  intros s0 r n E. pose proof (proj2 reSpaces_proper _ _ _ E).
  apply reSpaces_hit in E as (-> & _). simpl; lia.
Qed.

Lemma trimPunct_length s : length (trimPunct s) <= length s.
Proof.
  apply replaceAll_length; [exact rePunct_proper|].
  intros s0 r n E. pose proof (proj2 rePunct_proper _ _ _ E).
  apply rePunct_hit in E as (p & u & _ & _ & -> & _). simpl; lia.
Qed.

Lemma dropLastSemi_length s : length (dropLastSemi s) <= length s.
Proof.
  apply replaceAll_length; [exact reSemiBrace_proper|].
  intros s0 r n E. apply reSemiBrace_hit in E as (t & _ & -> & ->).
  simpl; lia.
Qed.

Lemma removeComments_shrinks s :
  hasComment s = true -> length (removeComments s) < length s.
Proof.
  apply replaceAll_shrinks; [exact reComment_proper|].
  intros s0 r n E. apply reComment_hit in E as (t & k & _ & _ & -> & ->).
  simpl; lia.
Qed.

Lemma dropLastSemi_shrinks s :
  includes [SEMI; RBRACE] s = true -> length (dropLastSemi s) < length s.
Proof.
  rewrite <- matchesSomewhere_reSemiBrace.
  apply replaceAll_shrinks; [exact reSemiBrace_proper|].
  intros s0 r n E. apply reSemiBrace_hit in E as (t & _ & -> & ->).
  simpl; lia.
Qed.

(** The closing brace at the head of the text behind the last pass. *)
Lemma dropLastSemi_head s :
  startsWith [RBRACE] (dropLastSemi s)
  = startsWith [RBRACE] s || startsWith [SEMI; RBRACE] s.
Proof.
  unfold dropLastSemi. destruct s as [|c t].
  - now rewrite (replaceAll_nil _ reSemiBrace_proper).
  - pose proof (reSemiBrace_startsWith (c :: t)) as E.
    destruct (startsWith [SEMI; RBRACE] (c :: t)) eqn:Hs.
    + rewrite (replaceAll_hit _ reSemiBrace_proper _ _ _ E).
      cbn [app startsWith]. now rewrite N.eqb_refl, orb_true_r.
    + rewrite (replaceAll_miss _ _ _ E). cbn [startsWith].
      now rewrite orb_false_r.
Qed.

Lemma dropLastSemi_semi_brace s :
  includes [SEMI; RBRACE] (dropLastSemi s)
  = includes [SEMI; SEMI; RBRACE] s.
Proof.
  unfold dropLastSemi.
  apply (replaceAll_ind reSemiBrace reSemiBrace_proper
    (fun s out => includes [SEMI; RBRACE] out
                  = includes [SEMI; SEMI; RBRACE] s)).
  - reflexivity.
  - intros c t E IH. rewrite reSemiBrace_startsWith in E.
    pose proof (dropLastSemi_head t) as Hh. unfold dropLastSemi in Hh.
    cbn [includes]. rewrite IH. f_equal.
    change (startsWith [SEMI; RBRACE] (c :: replaceAll reSemiBrace t))
      with ((SEMI =? c)%N && startsWith [RBRACE] (replaceAll reSemiBrace t)).
    change (startsWith [SEMI; SEMI; RBRACE] (c :: t))
      with ((SEMI =? c)%N && startsWith [SEMI; RBRACE] t).
    rewrite Hh.
    change (startsWith [SEMI; RBRACE] (c :: t))
      with ((SEMI =? c)%N && startsWith [RBRACE] t) in E.
    destruct (SEMI =? c)%N; [|reflexivity]. cbn [andb] in *.
    destruct (startsWith [RBRACE] t); [discriminate|reflexivity].
  - intros s0 r n E IH. apply reSemiBrace_hit in E as (t & -> & -> & ->).
    cbn [skipn app] in *. cbn [includes]. rewrite IH. reflexivity.
Qed.

Lemma wsRun_filter s : filter notWs (firstn (wsRun s) s) = [].
Proof.
  induction s as [|c t IH]; [reflexivity|]. simpl.
  destruct (is_ws c) eqn:E; [|reflexivity]. simpl. unfold notWs at 1.
  now rewrite E.
Qed.

Lemma collapseSpaces_filter s : filter notWs (collapseSpaces s) = filter notWs s.
Proof.
  apply replaceAll_filter; [exact reSpaces_proper|].
  intros s0 r n E. apply reSpaces_hit in E as (-> & -> & _).
  now rewrite wsRun_filter.
Qed.

Lemma firstn_run (a : str) p u k :
  firstn (length a + 1 + k) (a ++ p :: u) = a ++ p :: firstn k u.
Proof. now rewrite <- Nat.add_assoc, firstn_app_2. Qed.

Lemma trimPunct_filter s : filter notWs (trimPunct s) = filter notWs s.
Proof.
  apply replaceAll_filter; [exact rePunct_proper|].
  intros s0 r n E. apply rePunct_hit in E as (p & u & Hs & Hp & -> & -> & _).
  assert (exists a, s0 = a ++ p :: u /\ length a = wsRun s0
                    /\ filter notWs a = []) as (a & Hs0 & La & Fa).
  { exists (firstn (wsRun s0) s0). split; [|split].
    - rewrite <- Hs. symmetry. apply firstn_skipn.
    - rewrite length_firstn. pose proof (wsRun_le s0). lia.
    - apply wsRun_filter. }
  rewrite <- La, Hs0, firstn_run, filter_app, Fa.
  cbn [filter app]. now rewrite wsRun_filter.
Qed.

(* ================================================================== *)
(** * Trimming *)
(* ================================================================== *)

Lemma trimEnd_firstn s : trimEnd s = firstn (length s - wsRun (rev s)) s.
Proof.
  unfold trimEnd, trimStart. now rewrite skipn_rev, rev_involutive.
Qed.

Lemma trimStart_fixed s : wsRun s = 0 -> trimStart s = s.
Proof. unfold trimStart. now intros ->. Qed.

Lemma trimStart_head s : wsRun (trimStart s) = 0.
Proof. apply wsRun_skipn. Qed.

Lemma trimEnd_head s : wsRun s = 0 -> wsRun (trimEnd s) = 0.
Proof.
  intros H. rewrite trimEnd_firstn. destruct s as [|c t]; [reflexivity|].
  pose proof (wsRun_zero _ _ H) as Hc.
  pose proof (wsRun_stops (rev t) c [] Hc) as Hk. rewrite length_rev in Hk.
  cbn [rev length].
  destruct (S (length t) - wsRun (rev t ++ [c])) as [|j] eqn:E; [lia|].
  simpl. now rewrite Hc.
Qed.

Lemma trimEnd_trimEnd s : trimEnd (trimEnd s) = trimEnd s.
Proof.
  unfold trimEnd. rewrite rev_involutive.
  now rewrite (trimStart_fixed _ (trimStart_head _)).
Qed.

Lemma trim_trim s : trim (trim s) = trim s.
Proof.
  unfold trim.
  rewrite (trimStart_fixed (trimEnd (trimStart s))
             (trimEnd_head _ (trimStart_head s))).
  apply trimEnd_trimEnd.
Qed.

Lemma adjacent_firstn R n : forall s,
  adjacent R s = false -> adjacent R (firstn n s) = false.
Proof.
  induction n as [|n IH]; intros [|c t] H; try reflexivity.
  cbn [firstn]. rewrite adjacent_cons. rewrite adjacent_cons in H.
  apply orb_false_elim in H as [H1 H2]. rewrite (IH _ H2), orb_false_r.
  destruct t as [|d u]; [now destruct n|]. now destruct n.
Qed.

Lemma onlySpaces_sub s u :
  (forall c, In c u -> In c s) -> onlySpaces s = true -> onlySpaces u = true.
Proof.
  rewrite !onlySpaces_spec. intros Hsub H c Hc. apply H, Hsub, Hc.
Qed.

Lemma trim_In s c : In c (trim s) -> In c s.
Proof.
  unfold trim. rewrite trimEnd_firstn. intros H.
  assert (In c (trimStart s)) as H'.
  { rewrite <- (firstn_skipn (length (trimStart s) - wsRun (rev (trimStart s)))
                  (trimStart s)).
    apply in_or_app. now left. }
  unfold trimStart in H'.
  rewrite <- (firstn_skipn (wsRun s) s). apply in_or_app. now right.
Qed.

Lemma trim_adjacent R s : adjacent R s = false -> adjacent R (trim s) = false.
Proof.
  intros H. unfold trim. rewrite trimEnd_firstn.
  apply adjacent_firstn. unfold trimStart. now apply adjacent_skipn.
Qed.

Lemma trim_filter s : filter notWs (trim s) = filter notWs s.
Proof.
  assert (forall u, filter notWs (trimStart u) = filter notWs u) as Hs.
  { intros u. rewrite <- (firstn_skipn (wsRun u) u) at 2.
    now rewrite filter_app, wsRun_filter. }
  unfold trim, trimEnd.
  now rewrite filter_rev, Hs, <- filter_rev, rev_involutive, Hs.
Qed.

(* ================================================================== *)
(** * Lines, continued *)
(* ================================================================== *)

Lemma split_no_sep sep s : Forall (fun seg => ~ In sep seg) (split sep s).
Proof.
  induction s as [|c t IH]; simpl.
  - constructor; [tauto|constructor].
  - destruct (N.eqb_spec c sep) as [->|Hne].
    + constructor; [simpl; tauto | exact IH].
    + destruct (split sep t) as [|seg segs]; [repeat constructor; simpl; intuition|].
      inversion IH as [|? ? Hseg Hsegs]; subst.
      constructor; [|exact Hsegs]. simpl. intuition.
Qed.

Lemma split_plain sep seg : ~ In sep seg -> split sep seg = [seg].
Proof.
  induction seg as [|c t IH]; intros H; [reflexivity|]. simpl.
  destruct (N.eqb_spec c sep) as [->|Hne]; [exfalso; apply H; now left|].
  rewrite IH; [reflexivity|]. intros Hi. apply H. now right.
Qed.

Lemma split_segment sep seg rest :
  ~ In sep seg -> split sep (seg ++ sep :: rest) = seg :: split sep rest.
Proof.
  induction seg as [|c t IH]; intros H; simpl.
  - now rewrite N.eqb_refl.
  - destruct (N.eqb_spec c sep) as [->|Hne]; [exfalso; apply H; now left|].
    rewrite IH; [reflexivity|]. intros Hi. apply H. now right.
Qed.

Lemma digits_inj : forall u v, digits u = digits v -> u = v.
Proof.
  induction u as [|u IH|u IH|u IH|u IH|u IH|u IH|u IH|u IH|u IH|u IH];
    destruct v; simpl; intros H; try discriminate; try reflexivity;
    injection H as H; f_equal; now apply IH.
Qed.

Lemma numberToString_inj n n' :
  numberToString n = numberToString n' -> n = n'.
Proof.
  intros H. now apply DecimalNat.Unsigned.to_uint_inj, digits_inj.
Qed.

Lemma NoDup_map_injective {A B} (f : A -> B) l :
  (forall x y, f x = f y -> x = y) -> NoDup l -> NoDup (map f l).
Proof.
  intros Hf H. induction H as [|x l Hx _ IH]; simpl; constructor; [|exact IH].
  intros Hi. apply in_map_iff in Hi as (y & Hy & Hin).
  apply Hf in Hy. now subst.
Qed.

(* ================================================================== *)
(** * More on the minifier *)
(* ================================================================== *)

(** X1: the minified text is never longer than the text. *)
Theorem minifyCss_never_longer T : length (minifyCss T) <= length T.
Proof.
  unfold minifyCss.
  pose proof (removeComments_length T).
  pose proof (collapseSpaces_length (removeComments T)).
  pose proof (trimPunct_length (collapseSpaces (removeComments T))).
  pose proof (dropLastSemi_length
                (trimPunct (collapseSpaces (removeComments T)))).
  lia.
Qed.

(** X2: every code unit of the minified text occurs in the text, or is
    the space that stands for a run of whitespace. *)
Theorem minifyCss_no_new_characters T c :
  In c (minifyCss T) -> In c T \/ c = SPACE.
Proof.
  intros H. apply minifyCss_In in H as [H|H]; [left|now right].
  now apply removeComments_In.
Qed.

Lemma minifyCss_no_new_characters_witness :
  In RBRACE (minifyCss (lit "a { } ")) /\ (In RBRACE (lit "a { } ") \/ RBRACE = SPACE).
Proof.
  split; [vm_compute; tauto|].
  apply minifyCss_no_new_characters. vm_compute. tauto.
Defined.

(** X3: no whitespace other than the ASCII space is left in the
    minified text: no carriage return, form feed, vertical tab,
    no-break space, nor any other code unit of the class [\s]. *)
Theorem minifyCss_only_ascii_space T c :
  is_ws c = true -> c <> SPACE -> ~ In c (minifyCss T).
Proof.
  intros Hw Hc Hi. pose proof (minifyCss_onlySpaces T) as Ho.
  rewrite onlySpaces_spec in Ho. now apply Hc, Ho.
Qed.

Lemma minifyCss_only_ascii_space_witness :
  ~ In 13%N (minifyCss [97; 13; 10; 160; 98]%N).
Proof.
  apply minifyCss_only_ascii_space; [reflexivity | discriminate].
Defined.

(** X4: the texts that [minifyCss] returns unchanged are exactly those
    without a closed comment, with the space as only whitespace, without
    two neighbouring spaces, without a space next to [{ } : ;] and
    without [";}"]. *)
Theorem minifyCss_fixed_points T :
  minifyCss T = T <->
  hasComment T = false /\ onlySpaces T = true
  /\ adjacent twoSpaces T = false /\ adjacent spaceAtPunct T = false
  /\ includes (lit ";}") T = false.
Proof.
  change (lit ";}") with [SEMI; RBRACE]. split.
  - intros H.
    assert (hasComment T = false) as Hc.
    { destruct (hasComment T) eqn:E; [exfalso|reflexivity].
      apply removeComments_shrinks in E.
      pose proof (collapseSpaces_length (removeComments T)).
      pose proof (trimPunct_length (collapseSpaces (removeComments T))).
      pose proof (dropLastSemi_length
                    (trimPunct (collapseSpaces (removeComments T)))).
      assert (length (minifyCss T) = length T) as L by now rewrite H.
      unfold minifyCss in L. lia. }
    pose proof (minifyCss_onlySpaces T) as Ho.
    pose proof (minifyCss_twoSpaces T) as Ht.
    pose proof (minifyCss_clean T) as Hp. rewrite H in Ho, Ht, Hp.
    repeat split; auto.
    destruct (includes [SEMI; RBRACE] T) eqn:E; [exfalso|reflexivity].
    apply dropLastSemi_shrinks in E.
    assert (length (minifyCss T) = length T) as L by now rewrite H.
    unfold minifyCss in L.
    rewrite (removeComments_fixed _ Hc), (collapseSpaces_fixed _ Ho Ht),
      (trimPunct_fixed _ Ho Ht Hp) in L. lia.
  - intros (Hc & Ho & Ht & Hp & Hs). unfold minifyCss.
    rewrite (removeComments_fixed _ Hc), (collapseSpaces_fixed _ Ho Ht),
      (trimPunct_fixed _ Ho Ht Hp).
    now apply dropLastSemi_fixed.
Qed.

(** X5: the minified text holds [";}"] exactly when the text behind the
    third pass holds [";;}"]: of a run of semicolons before a closing
    brace the last pass removes the last one only. *)
Theorem minifyCss_semi_brace T :
  includes (lit ";}") (minifyCss T)
  = includes (lit ";;}") (trimPunct (collapseSpaces (removeComments T))).
Proof. apply dropLastSemi_semi_brace. Qed.

(** X6: the comment pass changes a text exactly when the text holds a
    closed comment, and then makes it shorter. *)
Theorem removeComments_changes T :
  (removeComments T = T <-> hasComment T = false)
  /\ (removeComments T <> T <-> length (removeComments T) < length T).
Proof.
  assert (removeComments T = T <-> hasComment T = false) as Hiff.
  { split; [|apply removeComments_fixed]. intros H.
    destruct (hasComment T) eqn:E; [exfalso|reflexivity].
    apply removeComments_shrinks in E. rewrite H in E. lia. }
  split; [exact Hiff|]. split.
  - intros H. destruct (hasComment T) eqn:E.
    + now apply removeComments_shrinks.
    + exfalso. apply H. now apply removeComments_fixed.
  - intros H E. rewrite E in H. lia.
Qed.

(** X7: the second and third pass touch whitespace only: the code units
    outside the class [\s] are the same, in the same order, before and
    behind them. *)
Theorem whitespace_passes_keep_the_rest s :
  filter notWs (trimPunct (collapseSpaces s)) = filter notWs s.
Proof. now rewrite trimPunct_filter, collapseSpaces_filter. Qed.

(* ================================================================== *)
(** * The normalisation of the test suite *)
(* ================================================================== *)

Lemma normalized_settled s :
  let n := trimPunct (collapseSpaces s) in
  onlySpaces n = true /\ adjacent twoSpaces n = false
  /\ adjacent spaceAtPunct n = false.
Proof.
  repeat split.
  - apply trimPunct_onlySpaces, collapseSpaces_onlySpaces.
  - apply trimPunct_twoSpaces, collapseSpaces_twoSpaces.
  - apply trimPunct_clean.
Qed.

Lemma normalizeCss_settled s :
  onlySpaces s = true -> adjacent twoSpaces s = false ->
  adjacent spaceAtPunct s = false -> normalizeCss s = trim s.
Proof.
  intros Ho Ht Hp. unfold normalizeCss.
  fold (collapseSpaces s). rewrite (collapseSpaces_fixed _ Ho Ht).
  fold (trimPunct s). now rewrite (trimPunct_fixed _ Ho Ht Hp).
Qed.

(** X8: [normalizeCss] is idempotent. *)
Theorem normalizeCss_idempotent s :
  normalizeCss (normalizeCss s) = normalizeCss s.
Proof.
  destruct (normalized_settled s) as (Ho & Ht & Hp). cbv zeta in *.
  unfold normalizeCss at 2.
  fold (collapseSpaces s). fold (trimPunct (collapseSpaces s)).
  rewrite normalizeCss_settled.
  - apply trim_trim.
  - eapply onlySpaces_sub; [|exact Ho]. intros c. apply trim_In.
  - now apply trim_adjacent.
  - now apply trim_adjacent.
Qed.

(** X9: on a minified text [normalizeCss] does no more than trim it, and
    neither the normalisation nor the trimming touches anything but
    whitespace. *)
Theorem normalizeCss_minified T s :
  normalizeCss (minifyCss T) = trim (minifyCss T)
  /\ filter notWs (normalizeCss s) = filter notWs s.
Proof.
  split.
  - apply normalizeCss_settled;
      [apply minifyCss_onlySpaces | apply minifyCss_twoSpaces
       | apply minifyCss_clean].
  - unfold normalizeCss. rewrite trim_filter.
    fold (collapseSpaces s). fold (trimPunct (collapseSpaces s)).
    now rewrite trimPunct_filter, collapseSpaces_filter.
Qed.

(* ================================================================== *)
(** * More on the source map *)
(* ================================================================== *)

(** X10: splitting at the newline undoes joining with it: lines without
    a newline, at least one of them, are what [split] returns for their
    [join]. *)
Theorem split_join sep segs :
  segs <> [] -> Forall (fun seg => ~ In sep seg) segs ->
  split sep (join [sep] segs) = segs.
Proof.
  intros Hne H. induction H as [|seg rest Hseg Hrest IH]; [congruence|].
  destruct rest as [|seg' rest'].
  - simpl. now apply split_plain.
  - cbn [join app]. rewrite (split_segment _ _ _ Hseg).
    f_equal. apply IH. discriminate.
Qed.

Lemma split_join_witness :
  split LF (join [LF] [lit "a {"; []; lit "}"]) = [lit "a {"; []; lit "}"].
Proof.
  apply split_join; [discriminate|].
  repeat constructor; simpl; intuition discriminate.
Defined.

(** X11: no [original] field of the map holds a newline. *)
Theorem generateSourceMap_lines T name :
  Forall (fun e => ~ In LF (original e)) (mappings (generateSourceMap T name)).
Proof.
  apply Forall_map with (f := original) (P := fun seg => ~ In LF seg).
  cbn [generateSourceMap mappings]. unfold mapi.
  rewrite mapi_from_same by reflexivity. apply split_no_sep.
Qed.

(** X12: the [generated] fields of the map are pairwise different. *)
Theorem generateSourceMap_generated_distinct T name :
  NoDup (map generated (mappings (generateSourceMap T name))).
Proof.
  cbn [generateSourceMap mappings]. unfold mapi.
  rewrite (mapi_from_field _ generated
             (fun i => numberToString (i + 1) ++ lit ":0"))
    by reflexivity.
  apply NoDup_map_injective; [|apply seq_NoDup].
  intros i j H. apply app_inv_tail, numberToString_inj in H. lia.
Qed.

(* ================================================================== *)
(** * The walk of the directory tree *)
(* ================================================================== *)

Lemma endsWith_app a p : endsWith p (a ++ p) = true.
Proof.
  unfold endsWith. rewrite length_app.
  replace (length a + length p - length p) with (length a) by lia.
  assert (skipn (length a) (a ++ p) = p) as ->
    by (now rewrite skipn_app, skipn_all, Nat.sub_diag).
  pose proof (startsWith_app p []) as H. rewrite app_nil_r in H.
  rewrite H, andb_true_r. apply Nat.leb_le. lia.
Qed.

Section Walk.
Context {node : NodeRuntime}.
Variable P : Event -> Prop.

Lemma adds_ret {A} (a : A) : adds P (ret a).
Proof.
  intros w. exists []. cbn. rewrite app_nil_r. repeat split; constructor.
Qed.

Lemma adds_bind {A B} (c : Eff A) (k : A -> Eff B) :
  adds P c -> (forall a, adds P (k a)) -> adds P (bind c k).
Proof.
  intros Hc Hk w. unfold bind.
  destruct (Hc w) as (e1 & T1 & F1 & D1).
  destruct (c w) as [[a| |] w1]; cbn [snd] in *;
    try (exists e1; now repeat split).
  destruct (Hk a w1) as (e2 & T2 & F2 & D2).
  exists (e1 ++ e2). split; [|split].
  - now rewrite T2, T1, app_assoc.
  - apply Forall_app. now split.
  - rewrite existsb_app. intros H. apply orb_false_elim in H as [H1 H2].
    now rewrite (D2 H2), (D1 H1).
Qed.

Lemma adds_event {A} (c : Eff A) e :
  P e -> (forall w, snd (c w) = record e w) -> isWrite e = false -> adds P c.
Proof.
  intros He Hc Hw w. exists [e]. rewrite Hc. cbn.
  repeat split; auto.
Qed.

Lemma adds_console_log msg : P (ConsoleLog msg) -> adds P (console_log msg).
Proof. intros H. apply (adds_event _ _ H); reflexivity. Qed.

Lemma adds_readdirSync p : P (ReaddirSync p) -> adds P (readdirSync p).
Proof.
  intros H. apply (adds_event _ _ H); [|reflexivity].
  intros w. unfold readdirSync. now destruct (fs_readdirSync _ _).
Qed.

Lemma adds_statSync p : P (StatSync p) -> adds P (statSync_isDirectory p).
Proof.
  intros H. apply (adds_event _ _ H); [|reflexivity].
  intros w. unfold statSync_isDirectory.
  now destruct (fs_statSync_isDirectory _ _).
Qed.

Lemma adds_readFileSync p : P (ReadFileSync p) -> adds P (readFileSync p).
Proof.
  intros H. apply (adds_event _ _ H); [|reflexivity].
  intros w. unfold readFileSync. now destruct (fs_readFileSync _ _).
Qed.

Lemma adds_writeFileSync p data :
  P (WriteFileSync p data) -> adds P (writeFileSync p data).
Proof.
  intros H w. exists [WriteFileSync p data]. unfold writeFileSync.
  destruct (fs_writeFileSync _ _ _); cbn; repeat split; auto; discriminate.
Qed.

Lemma adds_forEach {A} (f : A -> Eff unit) xs :
  (forall x, adds P (f x)) -> adds P (forEach xs f).
Proof.
  intros Hf. induction xs as [|x xs IH]; cbn [forEach].
  - apply adds_ret.
  - apply adds_bind; [apply Hf | intros _; exact IH].
Qed.

End Walk.

Lemma minifyCssFile_adds {node : NodeRuntime} dir file :
  isSource file = true -> adds walkEvent (minifyCssFile (path_join dir file)).
Proof.
  intros Hs. unfold minifyCssFile.
  apply adds_bind; [apply adds_readFileSync; now exists dir, file|].
  intros content.
  apply adds_bind; [apply adds_writeFileSync|intros _].
  { eexists _, _. split; [reflexivity|]. unfold isOutputName.
    now rewrite endsWith_app. }
  apply adds_bind; [apply adds_writeFileSync|intros _].
  { eexists _, _. split; [reflexivity|]. unfold isOutputName.
    now rewrite endsWith_app, orb_true_r. }
  apply adds_console_log. now eexists _, _.
Qed.

Lemma processDirectory_adds {node : NodeRuntime} fuel :
  forall dir, adds walkEvent (processDirectory fuel dir).
Proof.
  induction fuel as [|fuel IH]; intros dir.
  - intros w. exists []. cbn. rewrite app_nil_r. repeat split; constructor.
  - cbn [processDirectory].
    apply adds_bind; [now apply adds_readdirSync|]. intros files.
    apply adds_forEach. intros file.
    apply adds_bind; [now apply adds_statSync|]. intros [|]; [apply IH|].
    fold (isSource file). destruct (isSource file) eqn:Hs.
    + now apply minifyCssFile_adds.
    + apply adds_ret.
Qed.

(** The entries of a directory that holds nothing to minify are
    inspected one after the other, and that is all. *)
Lemma forEach_nothing_to_do {node : NodeRuntime} dir (dirCase : str -> Eff unit) :
  forall files w,
  (forall file, In file files ->
     fs_statSync_isDirectory (disk w) (path_join dir file) = Some false
     /\ isSource file = false) ->
  forEach files (fun file =>
    bind (statSync_isDirectory (path_join dir file)) (fun isDirectory =>
      if isDirectory then dirCase (path_join dir file)
      else if endsWith (lit ".css") file
              && negb (endsWith (lit ".min.css") file)
      then minifyCssFile (path_join dir file)
      else ret tt)) w
  = (Returned tt,
     {| disk := disk w;
        trace := trace w
                 ++ map (fun file => StatSync (path_join dir file)) files |}).
Proof.
  induction files as [|file files IH]; intros w H.
  - cbn. rewrite app_nil_r. now destruct w.
  - destruct (H file (or_introl eq_refl)) as [Hstat Hsrc].
    unfold isSource in Hsrc. cbn [forEach]. unfold bind at 1.
    unfold bind at 1, statSync_isDirectory. rewrite Hstat. cbn [orThrow].
    rewrite Hsrc. cbn [ret]. rewrite IH.
    + cbn [record disk trace map]. now rewrite <- app_assoc.
    + intros f Hf. apply H. now right.
Qed.

(** X13: whatever the disk holds and however the walk ends,
    [processDirectory] only lists directories, inspects entries, reads
    files whose name ends in [.css] but not in [.min.css], writes files
    whose name ends in [.min.css] or [.css.map], and reports minified
    files; the events before the walk stay in the trace. *)
Theorem processDirectory_events {node : NodeRuntime} fuel dir (w : World) :
  exists events,
    trace (snd (processDirectory fuel dir w)) = trace w ++ events
    /\ Forall walkEvent events.
Proof.
  destruct (processDirectory_adds fuel dir w) as (events & T & F & _).
  now exists events.
Qed.

(** X14: a walk that writes no file leaves the disk as it was. *)
Theorem processDirectory_disk {node : NodeRuntime} fuel dir (w : World) events :
  trace (snd (processDirectory fuel dir w)) = trace w ++ events ->
  existsb isWrite events = false ->
  disk (snd (processDirectory fuel dir w)) = disk w.
Proof.
  intros T Hw. destruct (processDirectory_adds fuel dir w) as (e & T' & _ & D).
  rewrite T in T'. apply app_inv_head in T'. subst e. now apply D.
Qed.

Lemma processDirectory_disk_witness :
  let w := Build_World (node := Memory.runtime)
             [(lit "css", Memory.Directory);
              (lit "css/a.min.css", Memory.File (lit "a{}"));
              (lit "css/notes.txt", Memory.File (lit "b { }"))] [] in
  disk (snd (processDirectory 1 (lit "css") w)) = disk w.
Proof.
  apply (processDirectory_disk (node := Memory.runtime)) with
    (events := [ReaddirSync (lit "css"); StatSync (lit "css/a.min.css");
                StatSync (lit "css/notes.txt")]); reflexivity.
Defined.

(** X15: over a directory whose entries are all regular files that are
    no sources (their names do not end in [.css], or end in [.min.css])
    the run completes: it lists the directory, inspects each entry in
    the order of the listing, reads and writes nothing, and reports the
    completion. *)
Theorem startMinification_nothing_to_do {node : NodeRuntime}
    fuel root files (w : World) :
  fs_existsSync (disk w) root = true ->
  fs_readdirSync (disk w) root = Some files ->
  (forall file, In file files ->
     fs_statSync_isDirectory (disk w) (path_join root file) = Some false
     /\ isSource file = false) ->
  startMinification (S fuel) root w
  = (Returned tt,
     {| disk := disk w;
        trace := trace w
          ++ [ConsoleLog (lit "Starting CSS minification in: " ++ root);
              ExistsSync root; ReaddirSync root]
          ++ map (fun file => StatSync (path_join root file)) files
          ++ [ConsoleLog (lit "CSS minification completed.")] |}).
Proof.
  intros He Hd Hf.
  unfold startMinification, bind at 1, console_log at 1.
  unfold bind at 1, existsSync. cbn [record disk trace]. rewrite He.
  cbn [negb processDirectory]. unfold bind at 1, bind at 1, readdirSync.
  cbn [record disk trace]. rewrite Hd. cbn [orThrow].
  rewrite forEach_nothing_to_do by exact Hf.
  unfold console_log, record. cbn [disk trace].
  now rewrite <- !app_assoc.
Qed.

Lemma startMinification_nothing_to_do_witness :
  let w := Build_World (node := Memory.runtime)
             [(lit "css", Memory.Directory);
              (lit "css/a.min.css", Memory.File (lit "a{}"));
              (lit "css/notes.txt", Memory.File (lit "b { }"))] [] in
  fst (startMinification 1 (lit "css") w) = Returned tt
  /\ disk (snd (startMinification 1 (lit "css") w)) = disk w.
Proof.
  cbv zeta.
  rewrite (startMinification_nothing_to_do (node := Memory.runtime) 0
             (lit "css") [lit "a.min.css"; lit "notes.txt"]).
  - split; reflexivity.
  - reflexivity.
  - reflexivity.
  - intros file [<-|[<-|[]]]; split; reflexivity.
Defined.

(** X16: when the first entry of the target directory is a source file
    that cannot be read, the exception ends the run there: no other
    entry is visited, nothing is written, and the completion is not
    reported. *)
Theorem startMinification_unreadable_file {node : NodeRuntime}
    fuel root file others (w : World) :
  fs_existsSync (disk w) root = true ->
  fs_readdirSync (disk w) root = Some (file :: others) ->
  fs_statSync_isDirectory (disk w) (path_join root file) = Some false ->
  isSource file = true ->
  fs_readFileSync (disk w) (path_join root file) = None ->
  startMinification (S fuel) root w
  = (Thrown,
     {| disk := disk w;
        trace := trace w
          ++ [ConsoleLog (lit "Starting CSS minification in: " ++ root);
              ExistsSync root; ReaddirSync root;
              StatSync (path_join root file);
              ReadFileSync (path_join root file)] |}).
Proof.
  intros He Hd Hstat Hsrc Hread. unfold isSource in Hsrc.
  unfold startMinification, bind at 1, console_log at 1.
  unfold bind at 1, existsSync. cbn [record disk trace]. rewrite He.
  cbn [negb processDirectory]. unfold bind at 1, bind at 1, readdirSync.
  cbn [record disk trace]. rewrite Hd. cbn [orThrow forEach].
  unfold bind at 1, bind at 1, statSync_isDirectory.
  cbn [record disk trace]. rewrite Hstat. cbn [orThrow]. rewrite Hsrc.
  unfold minifyCssFile, bind at 1, readFileSync.
  cbn [record disk trace]. rewrite Hread. cbn [orThrow].
  unfold record. cbn [disk trace]. now rewrite <- !app_assoc.
Qed.

Lemma startMinification_unreadable_file_witness :
  let w := Build_World (node := Memory.locked)
             [(lit "css", Memory.Directory);
              (lit "css/a.css", Memory.File (lit "a { }"));
              (lit "css/b.css", Memory.File (lit "b { }"))] [] in
  fst (startMinification 1 (lit "css") w) = Thrown
  /\ Memory.written (trace (snd (startMinification 1 (lit "css") w))) = [].
Proof.
  cbv zeta.
  rewrite (startMinification_unreadable_file (node := Memory.locked) 0
             (lit "css") (lit "a.css") [lit "b.css"]);
    try reflexivity.
  split; reflexivity.
Defined.

Lemma endsWith_inv p s : endsWith p s = true -> exists a, s = a ++ p.
Proof.
  unfold endsWith. intros H. apply andb_prop in H as [Hl Hs].
  apply Nat.leb_le in Hl. apply startsWith_inv in Hs as [b Hb].
  exists (firstn (length s - length p) s).
  rewrite <- (firstn_skipn (length s - length p) s) at 1. f_equal.
  assert (length (skipn (length s - length p) s) = length (p ++ b)) as L
    by now rewrite Hb.
  rewrite length_skipn, length_app in L.
  destruct b; [now rewrite app_nil_r in Hb | simpl in L; lia].
Qed.

(** X17: what a run writes is never a source of a later run: a name that
    ends in [.min.css] or in [.css.map] fails the test that selects the
    files to minify. *)
Theorem outputs_are_no_sources name :
  isOutputName name = true -> isSource name = false.
Proof.
  unfold isOutputName, isSource. intros H.
  destruct (endsWith (lit ".min.css") name) eqn:Hmin;
    [now rewrite andb_false_r|].
  cbn [orb negb] in *. rewrite andb_true_r.
  destruct (endsWith (lit ".css") name) eqn:Hcss; [exfalso|reflexivity].
  apply endsWith_inv in H as [a Ha]. apply endsWith_inv in Hcss as [b Hb].
  rewrite Ha in Hb.
  change (lit ".css.map") with (lit ".css.ma" ++ [112%N]) in Hb.
  change (lit ".css") with (lit ".cs" ++ [115%N]) in Hb.
  rewrite !app_assoc in Hb. apply app_inj_tail in Hb as [_ Hb].
  discriminate.
Qed.

Lemma outputs_are_no_sources_witness :
  isOutputName (lit "styles.css.map") = true
  /\ isSource (lit "styles.css.map") = false.
Proof.
  split; [reflexivity|]. apply outputs_are_no_sources. reflexivity.
Defined.
